(** * groups/reconcile.go: configuration merge, restrictions and reconciliation

    A shallow embedding of the group reconciler: the data model
    ([GoogleGroup], [Restriction]), the compilation of the restrictions
    ([RestrictionsConfig.Load]), the merge of [groups.yaml] fragments
    ([mergeGroups], [GroupsConfig.Load]), the lookup of the restriction that
    governs a path ([GetRestrictionForPath]) and the reconciliation loop
    ([reconcileGroups]) over the two mockable services.

    Go strings are byte strings and are modelled by [string]; slices by
    [list]; [map[string]string] by [gmap string string]; the set
    [map[string]struct{}] by [gset string]; a Go result pair [(v, err)] by a
    pair whose second component is [option error] ([None] is [nil]). *)

From Stdlib Require Import String Ascii List Bool Lia.
From stdpp Require Import base gmap strings list.
Import ListNotations.

Local Open Scope string_scope.
Local Open Scope list_scope.

(** ** Helpers from the Go standard library: package [strings] *)

(** [strings.HasPrefix]. *)
Fixpoint strings_HasPrefix (s prefix : string) : bool :=
  match prefix, s with
  | EmptyString, _ => true
  | String p prefix', String c s' => Ascii.eqb c p && strings_HasPrefix s' prefix'
  | String _ _, EmptyString => false
  end.

(** [s[n:]] for [n <= len(s)]. *)
Fixpoint sliceFrom (n : nat) (s : string) : string :=
  match n, s with
  | O, _ => s
  | S n', String _ s' => sliceFrom n' s'
  | S _, EmptyString => EmptyString
  end.

(** [strings.TrimPrefix]: [s] without the leading [prefix], or [s] itself
    when it does not start with [prefix]. *)
Definition strings_TrimPrefix (s prefix : string) : string :=
  if strings_HasPrefix s prefix then sliceFrom (String.length prefix) s else s.

(** Membership of a byte in a cutset. *)
Fixpoint inCutset (c : ascii) (cutset : string) : bool :=
  match cutset with
  | EmptyString => false
  | String d cutset' => Ascii.eqb c d || inCutset c cutset'
  end.

(** [strings.TrimLeft] and [strings.TrimRight] (byte cutsets). *)
Fixpoint strings_TrimLeft (s cutset : string) : string :=
  match s with
  | EmptyString => EmptyString
  | String c s' => if inCutset c cutset then strings_TrimLeft s' cutset else s
  end.

Fixpoint strings_TrimRight (s cutset : string) : string :=
  match s with
  | EmptyString => EmptyString
  | String c s' =>
      match strings_TrimRight s' cutset with
      | EmptyString => if inCutset c cutset then EmptyString else String c EmptyString
      | t => String c t
      end
  end.

(** [strings.Trim]: all leading and trailing bytes of [cutset] removed. *)
Definition strings_Trim (s cutset : string) : string :=
  strings_TrimRight (strings_TrimLeft s cutset) cutset.

(** ** Package [path/filepath] (Unix) *)

Definition filepath_Separator : ascii := "/"%char.

(** [string(filepath.Separator)]. *)
Definition separatorString : string := String filepath_Separator EmptyString.

(** The part of [s] after its last separator ([s] itself when it has none). *)
Fixpoint lastElement (s : string) (acc : string) : string :=
  match s with
  | EmptyString => acc
  | String c s' =>
      if Ascii.eqb c filepath_Separator then lastElement s' s' else lastElement s' acc
  end.

(** [filepath.Base]: the last element of the path, trailing separators
    removed first; ["."] for the empty path and ["/"] for a path of
    separators only. *)
Definition filepath_Base (path : string) : string :=
  if String.eqb path "" then "."
  else
    let p := strings_TrimRight path separatorString in
    let e := lastElement p p in
    if String.eqb e "" then separatorString else e.

(** ** Package [regexp]

    A compiled expression is its syntax tree, with the operator names of
    [regexp/syntax]; matching is by derivatives.  [Regexp.MatchString] is an
    unanchored search: it reports whether the text contains any match. *)

Inductive Regexp : Type :=
  | OpNoMatch                      (* matches no strings *)
  | OpEmptyMatch                   (* matches the empty string *)
  | OpLiteral (c : ascii)          (* matches one given byte *)
  | OpAnyCharNotNL                 (* [.] *)
  | OpAnyChar                      (* [(?s).] *)
  | OpBeginText                    (* [^] / [\A] *)
  | OpEndText                      (* [$] / [\z] *)
  | OpConcat (r1 r2 : Regexp)
  | OpAlternate (r1 r2 : Regexp)
  | OpStar (r : Regexp)
  | OpPlus (r : Regexp)
  | OpQuest (r : Regexp).

(** Does [r] match the empty string at a position that is at the beginning
    of the text ([bot]) and/or at its end ([eot])? *)
Fixpoint nullable (bot eot : bool) (r : Regexp) : bool :=
  match r with
  | OpNoMatch => false
  | OpEmptyMatch => true
  | OpLiteral _ | OpAnyCharNotNL | OpAnyChar => false
  | OpBeginText => bot
  | OpEndText => eot
  | OpConcat r1 r2 => nullable bot eot r1 && nullable bot eot r2
  | OpAlternate r1 r2 => nullable bot eot r1 || nullable bot eot r2
  | OpStar _ => true
  | OpPlus r1 => nullable bot eot r1
  | OpQuest _ => true
  end.

Definition newline : ascii := "010"%char.

(** The derivative of [r] by the byte [c] read at a position that is
    ([bot]) or is not at the beginning of the text. *)
Fixpoint deriv (bot : bool) (c : ascii) (r : Regexp) : Regexp :=
  match r with
  | OpNoMatch | OpEmptyMatch | OpBeginText | OpEndText => OpNoMatch
  | OpLiteral d => if Ascii.eqb c d then OpEmptyMatch else OpNoMatch
  | OpAnyCharNotNL => if Ascii.eqb c newline then OpNoMatch else OpEmptyMatch
  | OpAnyChar => OpEmptyMatch
  | OpConcat r1 r2 =>
      let left := OpConcat (deriv bot c r1) r2 in
      if nullable bot false r1 then OpAlternate left (deriv bot c r2) else left
  | OpAlternate r1 r2 => OpAlternate (deriv bot c r1) (deriv bot c r2)
  | OpStar r1 => OpConcat (deriv bot c r1) (OpStar r1)
  | OpPlus r1 => OpConcat (deriv bot c r1) (OpStar r1)
  | OpQuest r1 => deriv bot c r1
  end.

(** Does some prefix of [s] match [r]?  [bot] tells whether [s] starts at
    the beginning of the text; the end of [s] is the end of the text. *)
Fixpoint matchPrefix (bot : bool) (r : Regexp) (s : string) : bool :=
  match s with
  | EmptyString => nullable bot true r
  | String c s' => nullable bot false r || matchPrefix false (deriv bot c r) s'
  end.

(** Try every start position, left to right. *)
Fixpoint searchFrom (bot : bool) (r : Regexp) (s : string) : bool :=
  matchPrefix bot r s ||
  match s with
  | EmptyString => false
  | String _ s' => searchFrom false r s'
  end.

(** The method [MatchString] of a compiled [Regexp]. *)
Definition MatchString (r : Regexp) (s : string) : bool := searchFrom true r s.

(** The expression of a literal text, as [regexp.QuoteMeta] would give. *)
Fixpoint literalText (s : string) : Regexp :=
  match s with
  | EmptyString => OpEmptyMatch
  | String c s' => OpConcat (OpLiteral c) (literalText s')
  end.

(** ** The data model *)

Definition ownerRole : string := "OWNER".
Definition managerRole : string := "MANAGER".
Definition memberRole : string := "MEMBER".

Record GoogleGroup : Type := mkGoogleGroup
  { EmailId : string;
    Name : string;
    Description : string;
    Settings : gmap string string;
    Owners : list string;
    Managers : list string;
    Members : list string }.

Record GroupsConfig : Type := mkGroupsConfig
  { Groups : list GoogleGroup }.

Record Restriction : Type := mkRestriction
  { Path : string;
    AllowedGroups : list string;
    AllowedGroupsRe : list Regexp }.

Record RestrictionsConfig : Type := mkRestrictionsConfig
  { Restrictions : list Restriction }.

(** ** Errors *)

Inductive error : Type :=
  | errorString (msg : string)               (* an error of a collaborator *)
  | ErrGroupsMustHaveEmailId                 (* "groups must have email-id" *)
  | ErrCannotDefineGroup (email path : string)
      (* "cannot define group %q in %q" *)
  | ErrDuplicateGroupName (email : string)
      (* "cannot overwrite group definitions (duplicate group name %s)" *)
  | ErrCouldntMerge (e : error)              (* "couldn't merge groups: %v" *)
  | ErrReadingGroups (path : string) (e : error)
      (* "error reading groups config file %s: %v" *)
  | ErrParsingGroups (path : string) (e : error)
      (* "error parsing groups config at %s: %v" *)
  | ErrGroupHasNoEmailId (g : GoogleGroup)
      (* "group has no email-id: %#v" *)
  | ErrReadingRestrictions (path : string) (e : error)
      (* "error reading restrictions config file %s: %v" *)
  | ErrParsingRestrictions (path : string) (e : error)
      (* "error parsing restrictions config file %s: %v" *)
  | ErrParsingGroupPattern (pattern path : string) (e : error)
      (* "error parsing group pattern %q for path %q: %v" *).

(** ** Package [github.com/bmatcuk/doublestar]

    The glob matcher is a collaborator of this program; it is taken as a
    parameter.  [doublestar.Match(pattern, name)] returns [(matched, err)];
    [err] is the bad-pattern error of a malformed pattern. *)

Class Doublestar : Type :=
  { doublestar_Match : string -> string -> bool * option error }.

(** [regexp.Compile]: the parser of the package is a parameter too; it
    returns the compiled expression or the error of a pattern it rejects. *)
Class RegexpCompiler : Type :=
  { regexp_Compile : string -> Regexp * option error }.

(** [regexp.MustCompile("")]: the empty pattern parses to the empty match. *)
Definition emptyRegexp : Regexp := OpEmptyMatch.

Definition defaultRestriction : Restriction :=
  {| Path := "*"; AllowedGroups := []; AllowedGroupsRe := [emptyRegexp] |}.

(** ** Merging fragments *)

Fixpoint matchesRegexList (s : string) (list : list Regexp) : bool :=
  match list with
  | [] => false
  | r :: list' => if MatchString r s then true else matchesRegexList s list'
  end.

(** The first loop of [mergeGroups]: the identities of [a], added to
    [emails]. *)
Fixpoint collectEmails (a : list GoogleGroup) (emails : gset string) : gset string :=
  match a with
  | [] => emails
  | v :: a' => collectEmails a' ({[EmailId v]} ∪ emails)
  end.

(** The second loop of [mergeGroups]: the first violation among [b], if
    any.  [emails] is the set built from [a]; the loop does not extend it. *)
Fixpoint checkGroups (emails : gset string) (r : Restriction) (b : list GoogleGroup)
  : option error :=
  match b with
  | [] => None
  | v :: b' =>
      if String.eqb (EmailId v) "" then Some ErrGroupsMustHaveEmailId
      else if negb (matchesRegexList (EmailId v) (AllowedGroupsRe r)) then
        Some (ErrCannotDefineGroup (EmailId v) (Path r))
      else if bool_decide (EmailId v ∈ emails) then
        Some (ErrDuplicateGroupName (EmailId v))
      else checkGroups emails r b'
  end.

Definition mergeGroups (a b : list GoogleGroup) (r : Restriction)
  : list GoogleGroup * option error :=
  let emails := collectEmails a ∅ in
  match checkGroups emails r b with
  | Some err => ([], Some err)
  | None => (a ++ b, None)
  end.

(** ** The restriction of a path *)

(** [strings.Trim(strings.TrimPrefix(path, rootDir), string(filepath.Separator))]:
    the path relative to the root. *)
Definition cleanPathOf (path rootDir : string) : string :=
  strings_Trim (strings_TrimPrefix path rootDir) separatorString.

(** The loop of [GetRestrictionForPath] over [rc.Restrictions]: it returns
    [r] from inside the loop when [doublestar.Match] gives
    [err == nil && match], and runs to its end ([None]) otherwise. *)
Fixpoint restrictionLoop {D : Doublestar} (restrictions : list Restriction)
    (cleanPath : string) : option Restriction :=
  match restrictions with
  | [] => None
  | r :: rest =>
      let '(matched, err) := doublestar_Match (Path r) cleanPath in
      match err with
      | None => if matched then Some r else restrictionLoop rest cleanPath
      | Some _ => restrictionLoop rest cleanPath
      end
  end.

Definition GetRestrictionForPath {D : Doublestar} (rc : RestrictionsConfig)
    (path rootDir : string) : Restriction :=
  let cleanPath := cleanPathOf path rootDir in
  match restrictionLoop (Restrictions rc) cleanPath with
  | Some r => r
  | None => defaultRestriction
  end.

(** ** Loading the restrictions *)

(** What [ioutil.ReadFile] followed by [yaml.Unmarshal] gives for a path:
    a read error, a parse error (and what the parser left in its target), or
    the parsed value. *)
Inductive FileOutcome (T : Type) : Type :=
  | ReadFails (err : error)
  | ParseFails (err : error) (partial : T)
  | Parses (parsed : T).
Arguments ReadFails {T} _.
Arguments ParseFails {T} _ _.
Arguments Parses {T} _.

(** The compilation of the patterns of a restriction, in
    [RestrictionsConfig.Load]: the expressions compiled so far are in
    [allowedGroupsRe]. *)
Fixpoint compileAllowedGroups {C : RegexpCompiler} (path : string)
    (allowedGroups : list string) (allowedGroupsRe : list Regexp)
  : list Regexp * option error :=
  match allowedGroups with
  | [] => (allowedGroupsRe, None)
  | g :: allowedGroups' =>
      let '(re, err) := regexp_Compile g in
      match err with
      | Some e => (allowedGroupsRe, Some (ErrParsingGroupPattern g path e))
      | None => compileAllowedGroups path allowedGroups' (allowedGroupsRe ++ [re])
      end
  end.

(** The loop of [RestrictionsConfig.Load] over the parsed restrictions;
    [ret] holds the compiled ones. *)
Fixpoint compileRestrictions {C : RegexpCompiler} (restrictions ret : list Restriction)
  : list Restriction * option error :=
  match restrictions with
  | [] => (ret, None)
  | r :: restrictions' =>
      let '(allowedGroupsRe, err) := compileAllowedGroups (Path r) (AllowedGroups r) [] in
      match err with
      | Some e => (ret, Some e)
      | None =>
          let r' := {| Path := Path r; AllowedGroups := AllowedGroups r;
                       AllowedGroupsRe := allowedGroupsRe |} in
          compileRestrictions restrictions' (ret ++ [r'])
      end
  end.

(** [RestrictionsConfig.Load]: [file] is what reading and parsing [path]
    give; the receiver [rc] is assigned by the parser, and its restrictions
    are replaced by the compiled ones when all patterns compile. *)
Definition RestrictionsConfig_Load {C : RegexpCompiler} (rc : RestrictionsConfig)
    (path : string) (file : FileOutcome RestrictionsConfig)
  : RestrictionsConfig * option error :=
  match file with
  | ReadFails err => (rc, Some (ErrReadingRestrictions path err))
  | ParseFails err partial => (partial, Some (ErrParsingRestrictions path err))
  | Parses parsed =>
      let '(ret, err) := compileRestrictions (Restrictions parsed) [] in
      match err with
      | Some e => (parsed, Some e)
      | None => ({| Restrictions := ret |}, None)
      end
  end.

(** ** Loading the tree of fragments *)

(** One call of the walk function: the path, the error the walk met on it
    (if any) and what reading the file gives. *)
Record WalkEntry : Type := mkWalkEntry
  { entryPath : string;
    entryErr : option error;
    entryFile : FileOutcome GroupsConfig }.

(** [filepath.Walk] over the entries of a tree, in the order of the walk:
    the first error returned by the function stops the walk and is returned. *)
Fixpoint filepath_Walk {S : Type} (entries : list WalkEntry)
    (fn : WalkEntry -> S -> S * option error) (s : S) : S * option error :=
  match entries with
  | [] => (s, None)
  | en :: rest =>
      let '(s', err) := fn en s in
      match err with
      | Some e => (s', Some e)
      | None => filepath_Walk rest fn s'
      end
  end.

(** The function [GroupsConfig.Load] gives to the walk; [gc] is the
    receiver, whose [Groups] the function reads and assigns. *)
Definition loadEntry {D : Doublestar} (rootDir : string) (restrictions : RestrictionsConfig)
    (en : WalkEntry) (gc : GroupsConfig) : GroupsConfig * option error :=
  let path := entryPath en in
  match entryErr en with
  | Some err => (gc, Some err)
  | None =>
      if String.eqb (filepath_Base path) "groups.yaml" then
        match entryFile en with
        | ReadFails err => (gc, Some (ErrReadingGroups path err))
        | ParseFails err _ => (gc, Some (ErrParsingGroups path err))
        | Parses groupsConfigAtPath =>
            let r := GetRestrictionForPath restrictions path rootDir in
            let '(mergedGroups, err) :=
              mergeGroups (Groups gc) (Groups groupsConfigAtPath) r in
            match err with
            | Some e => (gc, Some (ErrCouldntMerge e))
            | None => ({| Groups := mergedGroups |}, None)
            end
        end
      else (gc, None)
  end.

Definition GroupsConfig_Load {D : Doublestar} (gc : GroupsConfig) (rootDir : string)
    (restrictions : RestrictionsConfig) (entries : list WalkEntry)
  : GroupsConfig * option error :=
  filepath_Walk entries (loadEntry rootDir restrictions) gc.

(** ** The reconciler *)

(** The two services are interfaces; [W] is the state of the world they act
    on (the remote directory and the services' current group). *)
Class AdminService (W : Type) : Type :=
  { admin_SetGroup : GoogleGroup -> W -> W;
    CreateOrUpdateGroupIfNescessary : W -> W * option error;
    AddOrUpdateGroupMembers : string -> list string -> W -> W * option error;
    RemoveMembersFromGroup : list string -> W -> W * option error;
    RemoveOwnerOrManagersFromGroup : list string -> W -> W * option error;
    DeleteGroupsIfNecessary : W -> W * option error }.

Class GroupService (W : Type) : Type :=
  { group_SetGroup : GoogleGroup -> W -> W;
    UpdateGroupSettings : W -> W * option error }.

(** The state a run threads: the world of the services and what was written
    to the log. *)
Record Run (W : Type) : Type := mkRun
  { world : W;
    logged : list error }.
Arguments mkRun {W} _ _.
Arguments world {W} _.
Arguments logged {W} _.

(** A step of the run: the new state and the error ([None] is [nil]). *)
Definition Step (W : Type) : Type := Run W -> Run W * option error.

(** [err := c; if err != nil { return err }; k]. *)
Definition andThen {W : Type} (c k : Step W) : Step W :=
  fun s =>
    let '(s', err) := c s in
    match err with
    | Some e => (s', Some e)
    | None => k s'
    end.

Declare Scope step_scope.
Delimit Scope step_scope with step.
Notation "c >>> k" := (andThen c k) (at level 65, right associativity) : step_scope.

(** A method that returns an error. *)
Definition call {W : Type} (op : W -> W * option error) : Step W :=
  fun s =>
    let '(w, err) := op (world s) in
    ({| world := w; logged := logged s |}, err).

(** A method that returns nothing. *)
Definition exec {W : Type} (op : W -> W) : Step W :=
  fun s => ({| world := op (world s); logged := logged s |}, None).

Definition log_Println {W : Type} (e : error) (s : Run W) : Run W :=
  {| world := world s; logged := logged s ++ [e] |}.

(** [err = c; if err != nil { log.Println(err) }]. *)
Definition orLog {W : Type} (c : Step W) : Step W :=
  fun s =>
    let '(s', err) := c s in
    match err with
    | Some e => (log_Println e s', None)
    | None => (s', None)
    end.

(** [m[key]] of a Go map: the zero value for a missing key. *)
Definition mapIndex (m : gmap string string) (key : string) : string :=
  default "" (m !! key).

(** The body of the loop of [reconcileGroups]. *)
Definition reconcileGroup {W : Type} {A : AdminService W} {G : GroupService W}
    (g : GoogleGroup) : Step W :=
  fun s =>
    if String.eqb (EmailId g) "" then (s, Some (ErrGroupHasNoEmailId g))
    else
      (exec (admin_SetGroup g) >>>
       exec (group_SetGroup g) >>>
       call CreateOrUpdateGroupIfNescessary >>>
       call UpdateGroupSettings >>>
       call (AddOrUpdateGroupMembers ownerRole (Owners g)) >>>
       call (AddOrUpdateGroupMembers managerRole (Managers g)) >>>
       orLog (call (AddOrUpdateGroupMembers memberRole (Members g))) >>>
       (if String.eqb (mapIndex (Settings g) "ReconcileMembers") "true" then
          let members := Owners g ++ Managers g in
          let members := members ++ Members g in
          call (RemoveMembersFromGroup members)
        else
          let members := Owners g ++ Managers g in
          call (RemoveOwnerOrManagersFromGroup members)))%step s.

Fixpoint reconcileGroups {W : Type} {A : AdminService W} {G : GroupService W}
    (groups : list GoogleGroup) : Step W :=
  match groups with
  | [] => call DeleteGroupsIfNecessary
  | g :: groups' => (reconcileGroup g >>> reconcileGroups groups')%step
  end.

(** ** A test double that records the calls

    For any implementation of the services over [W], the same
    implementation over [W * list Event], which appends every call, with
    its arguments and its result, to the record. *)

Inductive Call : Type :=
  | AdminSetGroup (g : GoogleGroup)
  | GroupSetGroup (g : GoogleGroup)
  | CreateOrUpdateGroup
  | UpdateSettings
  | AddOrUpdateMembers (role : string) (members : list string)
  | RemoveMembers (members : list string)
  | RemoveOwnerOrManagers (members : list string)
  | DeleteGroups.

Definition Event : Type := Call * option error.

Definition recordCall {W : Type} (c : Call) (op : W -> W * option error)
  : W * list Event -> (W * list Event) * option error :=
  fun '(w, tr) => let '(w', err) := op w in ((w', tr ++ [(c, err)]), err).

Definition recordExec {W : Type} (c : Call) (op : W -> W)
  : W * list Event -> W * list Event :=
  fun '(w, tr) => (op w, tr ++ [(c, None)]).

Definition recordingAdmin {W : Type} {A : AdminService W} : AdminService (W * list Event) :=
  {| admin_SetGroup g := recordExec (AdminSetGroup g) (admin_SetGroup g);
     CreateOrUpdateGroupIfNescessary :=
       recordCall CreateOrUpdateGroup CreateOrUpdateGroupIfNescessary;
     AddOrUpdateGroupMembers role members :=
       recordCall (AddOrUpdateMembers role members) (AddOrUpdateGroupMembers role members);
     RemoveMembersFromGroup members :=
       recordCall (RemoveMembers members) (RemoveMembersFromGroup members);
     RemoveOwnerOrManagersFromGroup members :=
       recordCall (RemoveOwnerOrManagers members) (RemoveOwnerOrManagersFromGroup members);
     DeleteGroupsIfNecessary := recordCall DeleteGroups DeleteGroupsIfNecessary |}.

Definition recordingGroup {W : Type} {G : GroupService W} : GroupService (W * list Event) :=
  {| group_SetGroup g := recordExec (GroupSetGroup g) (group_SetGroup g);
     UpdateGroupSettings := recordCall UpdateSettings UpdateGroupSettings |}.

(** The run of [reconcileGroups] over the recording services, from an empty
    record and an empty log: the record, the log and the returned error. *)
Definition recordedRun {W : Type} {A : AdminService W} {G : GroupService W}
    (groups : list GoogleGroup) (w : W) : list Event * list error * option error :=
  let '(s, err) :=
    @reconcileGroups (W * list Event) recordingAdmin recordingGroup groups
      {| world := (w, []); logged := [] |} in
  (snd (world s), logged s, err).

(** ** An executable glob matcher

    A small instance of [Doublestar], used to run the definitions on
    concrete paths: [**] matches any run of bytes, [*] any run of bytes
    other than the separator, [?] one such byte, a backslash quotes the next
    byte; a pattern that ends in a backslash or opens a class with [[] is
    reported as a bad pattern. *)

Inductive GlobToken : Type :=
  | GlobLit (c : ascii)
  | GlobOne
  | GlobStar
  | GlobDoubleStar.

Definition ErrBadPattern : error := errorString "syntax error in pattern".

Fixpoint globTokens (pattern : string) : option (list GlobToken) :=
  match pattern with
  | EmptyString => Some []
  | String c rest =>
      if Ascii.eqb c "\"%char then
        match rest with
        | EmptyString => None
        | String d rest' => cons (GlobLit d) <$> globTokens rest'
        end
      else if Ascii.eqb c "["%char then None
      else if Ascii.eqb c "?"%char then cons GlobOne <$> globTokens rest
      else if Ascii.eqb c "*"%char then
        match rest with
        | String d rest' =>
            if Ascii.eqb d "*"%char then cons GlobDoubleStar <$> globTokens rest'
            else cons GlobStar <$> globTokens rest
        | EmptyString => Some [GlobStar]
        end
      else cons (GlobLit c) <$> globTokens rest
  end.

Fixpoint globMatch (tokens : list GlobToken) (name : string) : bool :=
  match tokens with
  | [] => String.eqb name ""
  | GlobLit c :: tokens' =>
      match name with
      | String d name' => Ascii.eqb c d && globMatch tokens' name'
      | EmptyString => false
      end
  | GlobOne :: tokens' =>
      match name with
      | String d name' => negb (Ascii.eqb d filepath_Separator) && globMatch tokens' name'
      | EmptyString => false
      end
  | GlobStar :: tokens' =>
      (fix star (name : string) : bool :=
         globMatch tokens' name ||
         match name with
         | String d name' => negb (Ascii.eqb d filepath_Separator) && star name'
         | EmptyString => false
         end) name
  | GlobDoubleStar :: tokens' =>
      (fix star (name : string) : bool :=
         globMatch tokens' name ||
         match name with
         | String _ name' => star name'
         | EmptyString => false
         end) name
  end.

Definition simpleGlob : Doublestar :=
  {| doublestar_Match pattern name :=
       match globTokens pattern with
       | None => (false, Some ErrBadPattern)
       | Some tokens => (globMatch tokens name, None)
       end |}.

(** ** Implementations of the services used to run the reconciler

    A world that is the script of the results still to be returned: each
    call that can fail takes the next one ([nil] when the script is over). *)

Definition scriptedCall (script : list (option error)) : list (option error) * option error :=
  match script with
  | [] => ([], None)
  | r :: script' => (script', r)
  end.

Definition scriptedAdmin : AdminService (list (option error)) :=
  {| admin_SetGroup _ script := script;
     CreateOrUpdateGroupIfNescessary := scriptedCall;
     AddOrUpdateGroupMembers _ _ := scriptedCall;
     RemoveMembersFromGroup _ := scriptedCall;
     RemoveOwnerOrManagersFromGroup _ := scriptedCall;
     DeleteGroupsIfNecessary := scriptedCall |}.

Definition scriptedGroup : GroupService (list (option error)) :=
  {| group_SetGroup _ script := script;
     UpdateGroupSettings := scriptedCall |}.

(** A group with an identity and nothing else. *)
Definition groupNamed (email : string) : GoogleGroup :=
  {| EmailId := email; Name := ""; Description := ""; Settings := ∅;
     Owners := []; Managers := []; Members := [] |}.

(** ** Concrete data for running the definitions *)

(** The two fragments of the scenario: both define [dup@x.com]. *)
Definition firstFragment : WalkEntry :=
  {| entryPath := "/groups/a/groups.yaml"; entryErr := None;
     entryFile := Parses {| Groups := [groupNamed "one@x.com"; groupNamed "dup@x.com"] |} |}.

Definition secondFragment : WalkEntry :=
  {| entryPath := "/groups/b/groups.yaml"; entryErr := None;
     entryFile := Parses {| Groups := [groupNamed "two@x.com"; groupNamed "dup@x.com"] |} |}.

(** A restriction with a malformed pattern, and a well-formed one. *)
Definition malformedRestriction : Restriction :=
  {| Path := "team/["; AllowedGroups := ["^team-"];
     AllowedGroupsRe := [OpConcat OpBeginText (literalText "team-")] |}.

Definition teamRestriction : Restriction :=
  {| Path := "team/**"; AllowedGroups := ["^team-.*"];
     AllowedGroupsRe :=
       [OpConcat OpBeginText (OpConcat (literalText "team-") (OpStar OpAnyCharNotNL))] |}.

(** A group whose members are reconciled, a run over it and a plain group,
    and services whose fifth call, the addition of the plain members of the
    first group, fails. *)
Definition reconciledGroup : GoogleGroup :=
  {| EmailId := "team-a@x.com"; Name := "team a"; Description := "";
     Settings := {[ "ReconcileMembers" := "true" ]};
     Owners := ["o@x.com"]; Managers := ["m@x.com"]; Members := ["p@x.com"] |}.

Definition exampleGroups : list GoogleGroup := [reconciledGroup; groupNamed "b@x.com"].

Definition memberAddFails : list (option error) :=
  [None; None; None; None; Some (errorString "member not found")].

Definition exampleRun : list Event * list error * option error :=
  recordedRun (A := scriptedAdmin) (G := scriptedGroup) exampleGroups memberAddFails.

(** ** The vocabulary of the properties *)

(** The condition a group of the fragment must meet for the second loop to
    go on to the next group. *)
Definition passes (emails : gset string) (r : Restriction) (v : GoogleGroup) : Prop :=
  EmailId v <> "" /\
  matchesRegexList (EmailId v) (AllowedGroupsRe r) = true /\
  EmailId v ∉ emails.

(** What the specification asks of a group [v] of the fragment: a non-empty
    identity, matched by at least one pattern of [r], absent from [a]. *)
Definition admissible (a : list GoogleGroup) (r : Restriction) (v : GoogleGroup) : Prop :=
  EmailId v <> "" /\
  Exists (fun re => MatchString re (EmailId v) = true) (AllowedGroupsRe r) /\
  ~ In (EmailId v) (map EmailId a).

(** A restriction as [RestrictionsConfig.Load] leaves it: one compiled
    expression for each of its patterns. *)
Definition compiled (r : Restriction) : Prop :=
  length (AllowedGroupsRe r) = length (AllowedGroups r).

(** An entry of the walk that is a readable, well-formed [groups.yaml]. *)
Definition isFragment (en : WalkEntry) (fragment : GroupsConfig) : Prop :=
  entryErr en = None /\
  filepath_Base (entryPath en) = "groups.yaml" /\
  entryFile en = Parses fragment.

(** The glob pattern of [r] matches the path: [doublestar.Match] gives
    [err == nil && match]. *)
Definition patternMatches {D : Doublestar} (cleanPath : string) (r : Restriction) : Prop :=
  doublestar_Match (Path r) cleanPath = (true, None).

(** The call that adds the plain members, and the two removal calls. *)
Definition isMemberAdd (c : Call) : bool :=
  match c with
  | AddOrUpdateMembers role _ => String.eqb role memberRole
  | _ => false
  end.

Definition isRemoval (c : Call) : bool :=
  match c with
  | RemoveMembers _ | RemoveOwnerOrManagers _ => true
  | _ => false
  end.

(** The removal call the specification gives for a group: the wide one, with
    owners, managers and members, when the setting [ReconcileMembers] is the
    string ["true"]; the narrow one, with owners and managers, otherwise. *)
Definition removalCall (g : GoogleGroup) : Call :=
  if bool_decide (Settings g !! "ReconcileMembers" = Some "true") then
    RemoveMembers (Owners g ++ Managers g ++ Members g)
  else
    RemoveOwnerOrManagers (Owners g ++ Managers g).

(** The calls of one iteration that runs to its end, in order. *)
Definition groupSteps (g : GoogleGroup) : list Call :=
  [ AdminSetGroup g; GroupSetGroup g; CreateOrUpdateGroup; UpdateSettings;
    AddOrUpdateMembers ownerRole (Owners g);
    AddOrUpdateMembers managerRole (Managers g);
    AddOrUpdateMembers memberRole (Members g);
    removalCall g ].

(** The calls of a run in which no call fails, up to the first group
    without identity, and the error of that group. *)
Fixpoint scriptCalls (groups : list GoogleGroup) : list Call :=
  match groups with
  | [] => [DeleteGroups]
  | g :: groups' =>
      if String.eqb (EmailId g) "" then [] else groupSteps g ++ scriptCalls groups'
  end.

Fixpoint scriptError (groups : list GoogleGroup) : option error :=
  match groups with
  | [] => None
  | g :: groups' =>
      if String.eqb (EmailId g) "" then Some (ErrGroupHasNoEmailId g)
      else scriptError groups'
  end.

(** [played calls final trace log err]: [trace] records the calls of
    [calls], in order, up to the first failure of a call other than the one
    that adds plain members; the failures of that call are in [log]; [err]
    is the error of the call that stopped the run or, when all calls were
    made, [final]. *)
Inductive played : list Call -> option error -> list Event -> list error ->
                   option error -> Prop :=
  | played_end (final : option error) : played [] final [] [] final
  | played_ok c calls final trace log err :
      played calls final trace log err ->
      played (c :: calls) final ((c, None) :: trace) log err
  | played_abort c calls final e :
      isMemberAdd c = false ->
      played (c :: calls) final [(c, Some e)] [] (Some e)
  | played_logged c calls final e trace log err :
      isMemberAdd c = true ->
      played calls final trace log err ->
      played (c :: calls) final ((c, Some e) :: trace) (e :: log) err.


(** In [calls], every call that adds plain members is followed by a
    removal call. *)
Fixpoint removalAfterMemberAdd (calls : list Call) : Prop :=
  match calls with
  | [] => True
  | c :: calls' =>
      (isMemberAdd c = true ->
       match calls' with
       | c' :: _ => isRemoval c' = true
       | [] => False
       end) /\
      removalAfterMemberAdd calls'
  end.

(** The loop body and the loop over the recording services. *)
Definition recordedGroup {W : Type} {A : AdminService W} {G : GroupService W}
    (g : GoogleGroup) : Step (W * list Event) :=
  @reconcileGroup (W * list Event) recordingAdmin recordingGroup g.

Definition recordedGroups {W : Type} {A : AdminService W} {G : GroupService W}
    (groups : list GoogleGroup) : Step (W * list Event) :=
  @reconcileGroups (W * list Event) recordingAdmin recordingGroup groups.

(** * The rest of the file *)

(** ** [Config.Load] *)

Record Config : Type := mkConfig
  { BotID : string;
    SecretVersion : string;
    GroupsPath : string;
    RestrictionsPath : string;
    ConfirmChanges : bool }.

Definition defaultConfigFile : string := "config.yaml".
Definition defaultRestrictionsFile : string := "restrictions.yaml".

(** The errors of [Config.Load]. *)
Inductive ConfigError : Type :=
  | ErrReadingConfig (path : string) (e : error)
      (* "error reading config file %s: %v" *)
  | ErrParsingConfig (path : string) (e : error)
      (* "error parsing config file %s: %v" *)
  | ErrGroupsPathAbs (groupsPath : string) (e : error)
      (* "error converting groups-path %v to absolute path: %w" *)
  | ErrGroupsPathNotAbsolute (groupsPath : string)
      (* "groups-path must be an absolute path, got: %v " *).

(** [filepath.Abs], [filepath.Dir] and [filepath.Join] (of two elements)
    are parameters: they depend on the working directory and on the
    cleaning of paths. *)
Class FilePath : Type :=
  { filepath_Abs : string -> string * option error;
    filepath_Dir : string -> string;
    filepath_Join : string -> string -> string }.

(** [filepath.IsAbs] (Unix): the path begins with the separator. *)
Definition filepath_IsAbs (path : string) : bool :=
  strings_HasPrefix path separatorString.

(** [Config.Load].  [file] is what reading and parsing [configFilePath]
    give for the receiver [c].  The function reads the groups path of the
    package-level variable [config] for its absolute-path check:
    [packageConfig] is [None] when the receiver is that variable (as in
    [main]) and its value otherwise. *)
Definition Config_Load {F : FilePath} (packageConfig : option Config) (c : Config)
    (configFilePath : string) (confirmChanges : bool) (file : FileOutcome Config)
  : Config * option ConfigError :=
  match file with
  | ReadFails err => (c, Some (ErrReadingConfig configFilePath err))
  | ParseFails err partial => (partial, Some (ErrParsingConfig configFilePath err))
  | Parses c =>
      let '(c, err) :=
        if String.eqb (GroupsPath c) "" then
          let '(abs, err) := filepath_Abs (filepath_Dir configFilePath) in
          ({| BotID := BotID c; SecretVersion := SecretVersion c; GroupsPath := abs;
              RestrictionsPath := RestrictionsPath c;
              ConfirmChanges := ConfirmChanges c |}, err)
        else (c, None) in
      match err with
      | Some e => (c, Some (ErrGroupsPathAbs (GroupsPath c) e))
      | None =>
          let config := match packageConfig with None => c | Some config => config end in
          if negb (filepath_IsAbs (GroupsPath config)) then
            (c, Some (ErrGroupsPathNotAbsolute (GroupsPath c)))
          else
            let restrictionsPath :=
              if String.eqb (RestrictionsPath c) "" then
                filepath_Join (GroupsPath c) defaultRestrictionsFile
              else RestrictionsPath c in
            ({| BotID := BotID c; SecretVersion := SecretVersion c;
                GroupsPath := GroupsPath c; RestrictionsPath := restrictionsPath;
                ConfirmChanges := confirmChanges |}, None)
      end
  end.

(** ** [printGroupMembersAndSettings] *)

(** The fields of [admin.Group], [admin.Member] and [groupssettings.Groups]
    that the function reads. *)
Module admin_Group.
Record t : Type := mk
  { Email : string;
    Name : string;
    Description : string }.
End admin_Group.

Module admin_Member.
Record t : Type := mk
  { Email : string;
    Role : string }.
End admin_Member.

Module groupssettings_Groups.
Record t : Type := mk
  { AllowExternalMembers : string;
    WhoCanJoin : string;
    WhoCanViewMembership : string;
    WhoCanViewGroup : string;
    WhoCanDiscoverGroup : string;
    WhoCanInvite : string;
    WhoCanAdd : string;
    WhoCanApproveMembers : string;
    WhoCanModifyMembers : string;
    WhoCanModerateMembers : string;
    MembersCanPostAsTheGroup : string }.
End groupssettings_Groups.

(** The clients the two services give with [GetClient]; their calls read
    the remote directory [W]. *)
Class AdminServiceClient (W : Type) : Type :=
  { ListGroups : W -> W * (list admin_Group.t * option error);
    ListMembers : string -> W -> W * (list admin_Member.t * option error) }.

Class GroupServiceClient (W : Type) : Type :=
  { groupssettings_Get : string -> W -> W * (groupssettings_Groups.t * option error) }.

(** [CommentMap.GenYaml] of package [genyaml]. *)
Class GenYaml : Type :=
  { genyaml_GenYaml : GroupsConfig -> string * option error }.

Inductive PrintError : Type :=
  | ErrRetrieveUsers (e : error)
      (* "unable to retrieve users in domain: %v" *)
  | ErrRetrieveGroupInfo (email : string) (e : error)
      (* "unable to retrieve group info for group %s: %v" *)
  | ErrRetrieveMembers (e : error)
      (* "unable to retrieve members in group : %v" *)
  | ErrGenerateYaml (e : error)
      (* "unable to generate yaml for groups : %v" *).

(** The state the function threads: the remote directory, the lines
    printed on the standard output and the lines written to the log. *)
Record Printing (W : Type) : Type := mkPrinting
  { remote : W;
    stdout : list string;
    logLines : list string }.
Arguments mkPrinting {W} _ _ _.
Arguments remote {W} _.
Arguments stdout {W} _.
Arguments logLines {W} _.

(** [group.Settings = make(map[string]string)] and its eleven assignments. *)
Definition settingsOf (g2 : groupssettings_Groups.t) : gmap string string :=
  <["MembersCanPostAsTheGroup" := groupssettings_Groups.MembersCanPostAsTheGroup g2]>
  (<["WhoCanModerateMembers" := groupssettings_Groups.WhoCanModerateMembers g2]>
  (<["WhoCanModifyMembers" := groupssettings_Groups.WhoCanModifyMembers g2]>
  (<["WhoCanApproveMembers" := groupssettings_Groups.WhoCanApproveMembers g2]>
  (<["WhoCanAdd" := groupssettings_Groups.WhoCanAdd g2]>
  (<["WhoCanInvite" := groupssettings_Groups.WhoCanInvite g2]>
  (<["WhoCanDiscoverGroup" := groupssettings_Groups.WhoCanDiscoverGroup g2]>
  (<["WhoCanViewGroup" := groupssettings_Groups.WhoCanViewGroup g2]>
  (<["WhoCanViewMembership" := groupssettings_Groups.WhoCanViewMembership g2]>
  (<["WhoCanJoin" := groupssettings_Groups.WhoCanJoin g2]>
  (<["AllowExternalMembers" := groupssettings_Groups.AllowExternalMembers g2]>
   ∅)))))))))).

(** One of the three loops over [l.Members]: the addresses of the members
    with the role [role], appended to [acc]. *)
Fixpoint appendRole (role : string) (members : list admin_Member.t) (acc : list string)
  : list string :=
  match members with
  | [] => acc
  | m :: members' =>
      if String.eqb (admin_Member.Role m) role then
        appendRole role members' (acc ++ [admin_Member.Email m])
      else appendRole role members' acc
  end.

(** The group built by one iteration, from the listed group [g], its
    settings [g2] and its members [members]. *)
Definition groupOf (g : admin_Group.t) (g2 : groupssettings_Groups.t)
    (members : list admin_Member.t) : GoogleGroup :=
  match members with
  | [] =>
      {| EmailId := admin_Group.Email g; Name := admin_Group.Name g;
         Description := admin_Group.Description g; Settings := settingsOf g2;
         Owners := []; Managers := []; Members := [] |}
  | _ :: _ =>
      {| EmailId := admin_Group.Email g; Name := admin_Group.Name g;
         Description := admin_Group.Description g; Settings := settingsOf g2;
         Owners := appendRole ownerRole members [];
         Managers := appendRole managerRole members [];
         Members := appendRole memberRole members [] |}
  end.

Definition printLog {W : Type} (line : string) (s : Printing W) : Printing W :=
  {| remote := remote s; stdout := stdout s; logLines := logLines s ++ [line] |}.

Definition setRemote {W : Type} (w : W) (s : Printing W) : Printing W :=
  {| remote := w; stdout := stdout s; logLines := logLines s |}.

(** The loop of [printGroupMembersAndSettings] over [g.Groups];
    [groupsConfig] is the local variable it appends to. *)
Fixpoint printLoop {W : Type} {AC : AdminServiceClient W} {GC : GroupServiceClient W}
    (groups : list admin_Group.t) (groupsConfig : GroupsConfig) (s : Printing W)
  : Printing W * GroupsConfig * option PrintError :=
  match groups with
  | [] => (s, groupsConfig, None)
  | g :: groups' =>
      let '(w, (g2, err)) := groupssettings_Get (admin_Group.Email g) (remote s) in
      let s := setRemote w s in
      match err with
      | Some e => (s, groupsConfig, Some (ErrRetrieveGroupInfo (admin_Group.Email g) e))
      | None =>
          let '(w, (members, err)) := ListMembers (admin_Group.Email g) (remote s) in
          let s := setRemote w s in
          match err with
          | Some e => (s, groupsConfig, Some (ErrRetrieveMembers e))
          | None =>
              let s :=
                match members with
                | [] => printLog "No members found in group." s
                | _ :: _ => s
                end in
              let group := groupOf g g2 members in
              printLoop groups' {| Groups := Groups groupsConfig ++ [group] |} s
          end
      end
  end.

Definition printGroupMembersAndSettings {W : Type} {AC : AdminServiceClient W}
    {GC : GroupServiceClient W} {Y : GenYaml} (s : Printing W)
  : Printing W * option PrintError :=
  let '(w, (groups, err)) := ListGroups (remote s) in
  let s := setRemote w s in
  match err with
  | Some e => (s, Some (ErrRetrieveUsers e))
  | None =>
      match groups with
      | [] => (printLog "No groups found." s, None)
      | _ :: _ =>
          let '(s, groupsConfig, err) := printLoop groups {| Groups := [] |} s in
          match err with
          | Some e => (s, Some e)
          | None =>
              let '(yamlSnippet, err) := genyaml_GenYaml groupsConfig in
              match err with
              | Some e => (s, Some (ErrGenerateYaml e))
              | None =>
                  ({| remote := remote s; stdout := stdout s ++ [yamlSnippet];
                      logLines := logLines s |}, None)
              end
          end
      end
  end.

(** ** Vocabulary and data for the further properties *)

(** The first and the last byte of a string, and the strings made of
    separators only. *)
Definition firstByte (s : string) : option ascii :=
  match s with
  | EmptyString => None
  | String c _ => Some c
  end.

Fixpoint lastByte (s : string) : option ascii :=
  match s with
  | EmptyString => None
  | String c s' =>
      match lastByte s' with
      | None => Some c
      | Some d => Some d
      end
  end.

Fixpoint onlySeparators (s : string) : bool :=
  match s with
  | EmptyString => true
  | String c s' => Ascii.eqb c filepath_Separator && onlySeparators s'
  end.

(** A pattern that [regexp.Compile] accepts, and a parsed restriction with
    its patterns compiled in order. *)
Definition compiles {C : RegexpCompiler} (pattern : string) : Prop :=
  snd (regexp_Compile pattern) = None.

Definition compiledRestriction {C : RegexpCompiler} (r : Restriction) : Restriction :=
  {| Path := Path r; AllowedGroups := AllowedGroups r;
     AllowedGroupsRe := map (fun g => fst (regexp_Compile g)) (AllowedGroups r) |}.

(** A compiler used to run the definitions: it gives the expression of the
    literal text of a pattern, and rejects the pattern ["("]. *)
Definition literalCompiler : RegexpCompiler :=
  {| regexp_Compile pattern :=
       if String.eqb pattern "(" then (OpNoMatch, Some (errorString "missing closing )"))
       else (literalText pattern, None) |}.

(** An entry of the walk named [groups.yaml], the groups it contributes,
    and the error on which the walk function stops for an entry: the error of
    the walk itself, else the read or parse error of a [groups.yaml]. *)
Definition isGroupsFile (en : WalkEntry) : bool :=
  String.eqb (filepath_Base (entryPath en)) "groups.yaml".

Definition fragmentGroups (en : WalkEntry) : list GoogleGroup :=
  if isGroupsFile en then
    match entryFile en with
    | Parses groupsConfigAtPath => Groups groupsConfigAtPath
    | _ => []
    end
  else [].

Definition entryFailure (en : WalkEntry) : option error :=
  match entryErr en with
  | Some err => Some err
  | None =>
      if isGroupsFile en then
        match entryFile en with
        | ReadFails err => Some (ErrReadingGroups (entryPath en) err)
        | ParseFails err _ => Some (ErrParsingGroups (entryPath en) err)
        | Parses _ => None
        end
      else None
  end.

(** The entries the walk function does not pass over: those with an error
    of the walk and those named [groups.yaml]. *)
Definition isRelevant (en : WalkEntry) : bool :=
  match entryErr en with
  | Some _ => true
  | None => isGroupsFile en
  end.

(** Services none of whose calls returns an error. *)
Definition neverFails {W : Type} (A : AdminService W) (G : GroupService W) : Prop :=
  (forall w, snd (CreateOrUpdateGroupIfNescessary w) = None) /\
  (forall w, snd (UpdateGroupSettings w) = None) /\
  (forall role members w, snd (AddOrUpdateGroupMembers role members w) = None) /\
  (forall members w, snd (RemoveMembersFromGroup members w) = None) /\
  (forall members w, snd (RemoveOwnerOrManagersFromGroup members w) = None) /\
  (forall w, snd (DeleteGroupsIfNecessary w) = None).

(** The errors of the failed additions of plain members on a record, in
    order. *)
Fixpoint memberAddErrors (trace : list Event) : list error :=
  match trace with
  | [] => []
  | (c, Some e) :: trace' =>
      if isMemberAdd c then e :: memberAddErrors trace' else memberAddErrors trace'
  | (_, None) :: trace' => memberAddErrors trace'
  end.

(** Services over a world without state, all of whose calls succeed. *)
Definition idleAdmin : AdminService unit :=
  {| admin_SetGroup _ w := w;
     CreateOrUpdateGroupIfNescessary w := (w, None);
     AddOrUpdateGroupMembers _ _ w := (w, None);
     RemoveMembersFromGroup _ w := (w, None);
     RemoveOwnerOrManagersFromGroup _ w := (w, None);
     DeleteGroupsIfNecessary w := (w, None) |}.

Definition idleGroup : GroupService unit :=
  {| group_SetGroup _ w := w;
     UpdateGroupSettings w := (w, None) |}.

(** Path functions used to run [Config.Load]: the working directory is
    [/work] and paths are joined with a separator, without cleaning. *)
Definition plainPaths : FilePath :=
  {| filepath_Abs path :=
       if filepath_IsAbs path then (path, None) else ("/work/" +:+ path, None);
     filepath_Dir _ := ".";
     filepath_Join dir file := dir +:+ "/" +:+ file |}.

(** The members of a listing that have one of the three roles. *)
Definition hasRole (role : string) (m : admin_Member.t) : bool :=
  String.eqb (admin_Member.Role m) role.

Definition hasKnownRole (m : admin_Member.t) : bool :=
  hasRole ownerRole m || hasRole managerRole m || hasRole memberRole m.

(** A remote directory used to run [printGroupMembersAndSettings]: the
    groups with their settings and their members; the clients read it, and a
    group that is not in it gives an error. *)
Definition Directory : Type :=
  list (admin_Group.t * groupssettings_Groups.t * list admin_Member.t).

Definition findGroup (email : string) (w : Directory)
  : option (admin_Group.t * groupssettings_Groups.t * list admin_Member.t) :=
  List.find (fun x => String.eqb (admin_Group.Email (fst (fst x))) email) w.

Definition noSettings : groupssettings_Groups.t :=
  groupssettings_Groups.mk "" "" "" "" "" "" "" "" "" "" "".

Definition directoryAdminClient : AdminServiceClient Directory :=
  {| ListGroups w := (w, (map (fun x => fst (fst x)) w, None));
     ListMembers email w :=
       match findGroup email w with
       | Some x => (w, (snd x, None))
       | None => (w, ([], Some (errorString "notFound")))
       end |}.

Definition directoryGroupClient : GroupServiceClient Directory :=
  {| groupssettings_Get email w :=
       match findGroup email w with
       | Some x => (w, (snd (fst x), None))
       | None => (w, (noSettings, Some (errorString "notFound")))
       end |}.

(** A renderer that prints the identities of the groups. *)
Definition identitiesYaml : GenYaml :=
  {| genyaml_GenYaml groupsConfig :=
       (String.concat "," (map EmailId (Groups groupsConfig)), None) |}.

Definition exampleDirectory : Directory :=
  [ (admin_Group.mk "a@x.com" "a" "group a", noSettings,
     [ admin_Member.mk "m1@x.com" "MEMBER"; admin_Member.mk "o1@x.com" "OWNER";
       admin_Member.mk "s1@x.com" "SUSPENDED"; admin_Member.mk "g1@x.com" "MANAGER";
       admin_Member.mk "o2@x.com" "OWNER" ]);
    (admin_Group.mk "b@x.com" "b" "group b", noSettings, []) ].

(** A listed group and the group built for it. *)
Definition builtFor (g : admin_Group.t) (group : GoogleGroup) : Prop :=
  EmailId group = admin_Group.Email g /\
  Name group = admin_Group.Name g /\
  Description group = admin_Group.Description g.

(** * Properties *)

(** ** Regular expressions and the default restriction *)

Lemma matchPrefix_nullable (bot : bool) (r : Regexp) (s : string) :
  nullable bot false r = true -> nullable bot true r = true ->
  matchPrefix bot r s = true.
Proof.
  intros Hmid Hend. destruct s as [|c s']; simpl.
  - exact Hend.
  - rewrite Hmid. reflexivity.
Qed.

Lemma searchFrom_matchPrefix (bot : bool) (r : Regexp) (s : string) :
  matchPrefix bot r s = true -> searchFrom bot r s = true.
Proof.
  intros Hm. destruct s; simpl in *; rewrite Hm; reflexivity.
Qed.

Lemma emptyRegexp_matches_all (s : string) : MatchString emptyRegexp s = true.
Proof.
  unfold MatchString, emptyRegexp.
  apply searchFrom_matchPrefix, matchPrefix_nullable; reflexivity.
Qed.

Lemma matchesRegexList_Exists (s : string) (l : list Regexp) :
  matchesRegexList s l = true <-> Exists (fun re => MatchString re s = true) l.
Proof.
  induction l as [|re l IH]; simpl.
  - split; [discriminate | intros HE; inversion HE].
  - destruct (MatchString re s) eqn:Hre.
    + split; [intros _; left; exact Hre | reflexivity].
    + rewrite IH. split.
      * intros HE. right. exact HE.
      * intros HE. inversion HE as [? ? Hhd | ? ? Htl]; subst;
          [congruence | exact Htl].
Qed.

Lemma matchesRegexList_nil (s : string) : matchesRegexList s [] = false.
Proof. reflexivity. Qed.

Lemma matchesRegexList_default (s : string) :
  matchesRegexList s (AllowedGroupsRe defaultRestriction) = true.
Proof. simpl. rewrite emptyRegexp_matches_all. reflexivity. Qed.

(** ** The two loops of [mergeGroups] *)

Lemma collectEmails_elem (a : list GoogleGroup) (emails : gset string) (x : string) :
  x ∈ collectEmails a emails <-> x ∈ emails \/ In x (map EmailId a).
Proof.
  revert emails. induction a as [|v a IH]; intros emails; simpl.
  - tauto.
  - rewrite IH, elem_of_union, elem_of_singleton. split.
    + intros [[->|Hin]|Hin]; auto.
    + intros [Hin|[<-|Hin]]; auto.
Qed.

Lemma collectEmails_empty (a : list GoogleGroup) (x : string) :
  x ∈ collectEmails a ∅ <-> In x (map EmailId a).
Proof.
  rewrite collectEmails_elem. split; [intros [Hin|Hin] | auto].
  - exfalso. revert Hin. apply not_elem_of_empty.
  - exact Hin.
Qed.

Lemma checkGroups_None (emails : gset string) (r : Restriction) (b : list GoogleGroup) :
  checkGroups emails r b = None <-> Forall (passes emails r) b.
Proof.
  induction b as [|v b IH]; simpl.
  - split; [constructor | reflexivity].
  - destruct (String.eqb_spec (EmailId v) "") as [Hid|Hid].
    { split; [discriminate | intros HF; inversion HF as [|? ? [Hne _] _]; contradiction]. }
    destruct (matchesRegexList (EmailId v) (AllowedGroupsRe r)) eqn:Hre; simpl.
    2:{ split; [discriminate |].
        intros HF; inversion HF as [|? ? (_ & Hm & _) _]; congruence. }
    destruct (bool_decide_reflect (EmailId v ∈ emails)) as [Hin|Hin].
    { split; [discriminate | intros HF; inversion HF as [|? ? (_ & _ & Hn) _]; contradiction]. }
    rewrite IH. split.
    + intros HF. constructor; [repeat split; assumption | exact HF].
    + intros HF. inversion HF; assumption.
Qed.

(** The error of the second loop is one of its three, and names a group of
    the fragment. *)
Lemma checkGroups_Some (emails : gset string) (r : Restriction) (b : list GoogleGroup)
    (e : error) :
  checkGroups emails r b = Some e ->
  exists v, In v b /\
    ((EmailId v = "" /\ e = ErrGroupsMustHaveEmailId) \/
     (EmailId v <> "" /\ matchesRegexList (EmailId v) (AllowedGroupsRe r) = false /\
      e = ErrCannotDefineGroup (EmailId v) (Path r)) \/
     (EmailId v <> "" /\ matchesRegexList (EmailId v) (AllowedGroupsRe r) = true /\
      EmailId v ∈ emails /\ e = ErrDuplicateGroupName (EmailId v))).
Proof.
  induction b as [|v b IH]; simpl; [discriminate|].
  destruct (String.eqb_spec (EmailId v) "") as [Hid|Hid].
  { intros [= <-]. exists v. split; [left; reflexivity | left; split; auto]. }
  destruct (matchesRegexList (EmailId v) (AllowedGroupsRe r)) eqn:Hre; simpl.
  2:{ intros [= <-]. exists v. split; [left; reflexivity | right; left; auto]. }
  destruct (bool_decide_reflect (EmailId v ∈ emails)) as [Hin|Hin].
  { intros [= <-]. exists v. split; [left; reflexivity | right; right; auto]. }
  intros He. destruct (IH He) as (u & Hu & Hcase).
  exists u. split; [right; exact Hu | exact Hcase].
Qed.

Lemma mergeGroups_result (a b : list GoogleGroup) (r : Restriction) :
  (checkGroups (collectEmails a ∅) r b = None /\ mergeGroups a b r = (a ++ b, None)) \/
  (exists e, checkGroups (collectEmails a ∅) r b = Some e /\
             mergeGroups a b r = ([], Some e)).
Proof.
  unfold mergeGroups. destruct (checkGroups (collectEmails a ∅) r b) as [e|].
  - right. exists e. split; reflexivity.
  - left. split; reflexivity.
Qed.

(** ** Properties of [mergeGroups] *)

Lemma passes_admissible (a : list GoogleGroup) (r : Restriction) (v : GoogleGroup) :
  passes (collectEmails a ∅) r v <-> admissible a r v.
Proof.
  unfold passes, admissible.
  rewrite matchesRegexList_Exists, collectEmails_empty. reflexivity.
Qed.

Lemma mergeGroups_ok_iff (a b : list GoogleGroup) (r : Restriction) :
  mergeGroups a b r = (a ++ b, None) <-> Forall (admissible a r) b.
Proof.
  assert (HF : Forall (passes (collectEmails a ∅) r) b <-> Forall (admissible a r) b).
  { rewrite !List.Forall_forall.
    split; intros Hall v Hv; apply passes_admissible, Hall, Hv. }
  rewrite <- HF, <- checkGroups_None.
  destruct (mergeGroups_result a b r) as [[Hc Hm]|(e & Hc & Hm)]; rewrite Hm, Hc.
  - tauto.
  - split; discriminate.
Qed.

(** C2: [mergeGroups a b r] returns a result (its error is [nil]) if and
    only if every group of [b] has a non-empty identity that matches at
    least one pattern of [r] and does not occur in [a]; the result is then
    exactly [a] followed by [b], and otherwise an error is returned with no
    result. *)
Theorem mergeGroups_succeeds_iff (a b : list GoogleGroup) (r : Restriction) :
  ((exists merged, mergeGroups a b r = (merged, None)) <-> Forall (admissible a r) b) /\
  (forall merged, mergeGroups a b r = (merged, None) -> merged = a ++ b) /\
  ((exists e, mergeGroups a b r = ([], Some e)) <-> ~ Forall (admissible a r) b).
Proof.
  pose proof (mergeGroups_ok_iff a b r) as Hiff.
  destruct (mergeGroups_result a b r) as [[_ Hm]|(e & _ & Hm)].
  - repeat split.
    + intros _. apply Hiff. exact Hm.
    + intros _. exists (a ++ b). exact Hm.
    + intros merged Heq. rewrite Hm in Heq. congruence.
    + intros [e He] _. rewrite Hm in He. discriminate.
    + intros Hn. exfalso. apply Hn, Hiff. exact Hm.
  - repeat split.
    + intros [merged Heq]. rewrite Hm in Heq. discriminate.
    + intros HF. apply Hiff in HF. rewrite Hm in HF. discriminate.
    + intros merged Heq. rewrite Hm in Heq. discriminate.
    + intros _ HF. apply Hiff in HF. rewrite Hm in HF. discriminate.
    + intros _. exists e. exact Hm.
Qed.

(** C7: merging an empty fragment succeeds and returns the accumulated list
    unchanged, whatever the restriction. *)
Theorem mergeGroups_empty_fragment (a : list GoogleGroup) (r : Restriction) :
  mergeGroups a [] r = (a, None).
Proof.
  unfold mergeGroups. simpl. rewrite app_nil_r. reflexivity.
Qed.

(** C9: a restriction whose compiled pattern list is empty matches no
    string, so under it the merge of any fragment with at least one group
    fails, on the first group, with the empty-identity or the restriction
    error. *)
Theorem empty_allowed_list_rejects_all (a b : list GoogleGroup) (r : Restriction) :
  AllowedGroupsRe r = [] -> b <> [] ->
  (forall s, matchesRegexList s (AllowedGroupsRe r) = false) /\
  exists v e, head b = Some v /\ mergeGroups a b r = ([], Some e) /\
    (e = ErrGroupsMustHaveEmailId \/ e = ErrCannotDefineGroup (EmailId v) (Path r)).
Proof.
  intros Hre Hb. split.
  - intros s. rewrite Hre. reflexivity.
  - destruct b as [|v b]; [contradiction|].
    exists v. unfold mergeGroups. simpl. rewrite Hre. simpl.
    destruct (String.eqb (EmailId v) "").
    + exists ErrGroupsMustHaveEmailId. auto.
    + exists (ErrCannotDefineGroup (EmailId v) (Path r)). auto.
Qed.

Lemma empty_allowed_list_rejects_all_witness :
  exists v e,
    head [groupNamed "a@x.com"] = Some v /\
    mergeGroups [] [groupNamed "a@x.com"]
      {| Path := "team/**"; AllowedGroups := []; AllowedGroupsRe := [] |} = ([], Some e) /\
    (e = ErrGroupsMustHaveEmailId \/ e = ErrCannotDefineGroup (EmailId v) "team/**").
Proof.
  apply (empty_allowed_list_rejects_all []  [groupNamed "a@x.com"]
           {| Path := "team/**"; AllowedGroups := []; AllowedGroupsRe := [] |}).
  - reflexivity.
  - discriminate.
Defined.

(** The second loop compares the groups of the fragment with the
    accumulated groups only: a group that may be merged may be merged
    twice by one fragment. *)
Lemma mergeGroups_same_group_twice (a : list GoogleGroup) (r : Restriction)
    (g : GoogleGroup) :
  admissible a r g -> mergeGroups a [g; g] r = (a ++ [g; g], None).
Proof.
  intros Hg. apply mergeGroups_ok_iff.
  apply List.Forall_cons; [exact Hg | apply List.Forall_cons; [exact Hg | apply List.Forall_nil]].
Qed.

(** C1: the merge accepts a fragment that holds the same identity twice.
    The set of identities is built from the accumulated list only, so two
    groups of one fragment are never compared with each other: the call
    returns both, and the merged list has a repeated identity. *)
Theorem mergeGroups_accepts_duplicate_in_fragment :
  let g := groupNamed "dup@x.com" in
  List.NoDup (map EmailId ([] : list GoogleGroup)) /\
  mergeGroups [] [g; g] defaultRestriction = ([g; g], None) /\
  ~ List.NoDup (map EmailId (fst (mergeGroups [] [g; g] defaultRestriction))).
Proof.
  split; [constructor | split].
  - vm_compute. reflexivity.
  - vm_compute. intros HN. inversion HN as [|? ? Hnotin _]; subst.
    apply Hnotin. left. reflexivity.
Qed.

(** ** Properties of [GroupsConfig.Load] *)

Lemma filepath_Walk_app {S : Type} (l1 l2 : list WalkEntry)
    (fn : WalkEntry -> S -> S * option error) (s s1 : S) :
  filepath_Walk l1 fn s = (s1, None) ->
  filepath_Walk (l1 ++ l2) fn s = filepath_Walk l2 fn s1.
Proof.
  revert s. induction l1 as [|en l1 IH]; intros s; simpl.
  - intros [= ->]. reflexivity.
  - destruct (fn en s) as [s' [e|]]; [discriminate|]. apply IH.
Qed.

Lemma loadEntry_fragment {D : Doublestar} (rootDir : string) (restrictions : RestrictionsConfig)
    (en : WalkEntry) (fragment gc : GroupsConfig) :
  isFragment en fragment ->
  loadEntry rootDir restrictions en gc =
    let '(mergedGroups, err) :=
      mergeGroups (Groups gc) (Groups fragment)
        (GetRestrictionForPath restrictions (entryPath en) rootDir) in
    match err with
    | Some e => (gc, Some (ErrCouldntMerge e))
    | None => ({| Groups := mergedGroups |}, None)
    end.
Proof.
  intros (Herr & Hbase & Hfile). unfold loadEntry.
  rewrite Herr, Hbase, Hfile. reflexivity.
Qed.

(** A failed merge, seen from [Load]: the walk stops on the fragment, the
    merge error is returned and the receiver is the one before the call. *)
Lemma Load_merge_error {D : Doublestar} (rootDir : string) (restrictions : RestrictionsConfig)
    (before after : list WalkEntry) (en : WalkEntry) (gc0 gc1 fragment : GroupsConfig)
    (merged : list GoogleGroup) (e : error) :
  GroupsConfig_Load gc0 rootDir restrictions before = (gc1, None) ->
  isFragment en fragment ->
  mergeGroups (Groups gc1) (Groups fragment)
    (GetRestrictionForPath restrictions (entryPath en) rootDir) = (merged, Some e) ->
  GroupsConfig_Load gc0 rootDir restrictions (before ++ en :: after) =
    (gc1, Some (ErrCouldntMerge e)).
Proof.
  unfold GroupsConfig_Load. intros Hbefore Hfrag Hmerge.
  rewrite (filepath_Walk_app _ _ _ _ _ Hbefore). simpl.
  rewrite (loadEntry_fragment _ _ _ _ _ Hfrag), Hmerge. reflexivity.
Qed.

(** C3: when the merge of a fragment returns an error, [Load] returns that
    error and the accumulated groups are those before the call; in
    particular a fragment that defines an identity already accumulated makes
    the merge fail, and, when the identities of the fragment are non-empty
    and allowed at its path, the error is the duplicate error of an identity
    that both define. *)
Theorem merge_failure_keeps_accumulator {D : Doublestar} (rootDir : string)
    (restrictions : RestrictionsConfig) (before after : list WalkEntry) (en : WalkEntry)
    (gc0 gc1 fragment : GroupsConfig) :
  GroupsConfig_Load gc0 rootDir restrictions before = (gc1, None) ->
  isFragment en fragment ->
  let r := GetRestrictionForPath restrictions (entryPath en) rootDir in
  (forall merged e,
      mergeGroups (Groups gc1) (Groups fragment) r = (merged, Some e) ->
      merged = [] /\
      GroupsConfig_Load gc0 rootDir restrictions (before ++ en :: after) =
        (gc1, Some (ErrCouldntMerge e))) /\
  (forall v,
      In v (Groups fragment) -> In (EmailId v) (map EmailId (Groups gc1)) ->
      exists e,
        mergeGroups (Groups gc1) (Groups fragment) r = ([], Some e) /\
        GroupsConfig_Load gc0 rootDir restrictions (before ++ en :: after) =
          (gc1, Some (ErrCouldntMerge e)) /\
        (Forall (fun u => EmailId u <> "" /\
                          matchesRegexList (EmailId u) (AllowedGroupsRe r) = true)
                (Groups fragment) ->
         exists u, In u (Groups fragment) /\ In (EmailId u) (map EmailId (Groups gc1)) /\
                   e = ErrDuplicateGroupName (EmailId u))).
Proof.
  intros Hbefore Hfrag r. split.
  - intros merged e Hmerge. split.
    + destruct (mergeGroups_result (Groups gc1) (Groups fragment) r)
        as [[_ Hok]|(e' & _ & Herr)]; rewrite Hmerge in *; congruence.
    + eapply Load_merge_error; eassumption.
  - intros v Hv Hdup.
    destruct (mergeGroups_result (Groups gc1) (Groups fragment) r)
      as [[_ Hok]|(e & Hc & Herr)].
    + apply mergeGroups_ok_iff in Hok. rewrite List.Forall_forall in Hok.
      destruct (Hok v Hv) as (_ & _ & Hnot). contradiction.
    + exists e. split; [exact Herr | split].
      * eapply Load_merge_error; eassumption.
      * intros Hvalid. rewrite List.Forall_forall in Hvalid.
        apply checkGroups_Some in Hc.
        destruct Hc as (u & Hu & [[Hid _]|[(_ & Hno & _)|(_ & _ & Hin & ->)]]).
        -- destruct (Hvalid u Hu) as [Hne _]. contradiction.
        -- destruct (Hvalid u Hu) as [_ Hm]. congruence.
        -- exists u. rewrite collectEmails_empty in Hin. auto.
Qed.

Lemma merge_failure_keeps_accumulator_witness :
  GroupsConfig_Load (D := simpleGlob) {| Groups := [] |} "/groups"
    {| Restrictions := [] |} ([firstFragment] ++ secondFragment :: []) =
  ({| Groups := [groupNamed "one@x.com"; groupNamed "dup@x.com"] |},
   Some (ErrCouldntMerge (ErrDuplicateGroupName "dup@x.com"))).
Proof.
  refine (proj2 (proj1
    (merge_failure_keeps_accumulator (D := simpleGlob) "/groups" {| Restrictions := [] |}
       [firstFragment] [] secondFragment {| Groups := [] |}
       {| Groups := [groupNamed "one@x.com"; groupNamed "dup@x.com"] |}
       {| Groups := [groupNamed "two@x.com"; groupNamed "dup@x.com"] |} _ _) [] _ _)).
  - vm_compute. reflexivity.
  - repeat split; vm_compute; reflexivity.
  - vm_compute. reflexivity.
Defined.

(** ** Properties of [GetRestrictionForPath] *)

Lemma restrictionLoop_cons {D : Doublestar} (r : Restriction) (rest : list Restriction)
    (cleanPath : string) :
  (patternMatches cleanPath r /\ restrictionLoop (r :: rest) cleanPath = Some r) \/
  (~ patternMatches cleanPath r /\
   restrictionLoop (r :: rest) cleanPath = restrictionLoop rest cleanPath).
Proof.
  unfold patternMatches. simpl.
  destruct (doublestar_Match (Path r) cleanPath) as [[|] [e|]].
  - right. split; [congruence | reflexivity].
  - left. split; reflexivity.
  - right. split; [congruence | reflexivity].
  - right. split; [congruence | reflexivity].
Qed.

Lemma restrictionLoop_None {D : Doublestar} (restrictions : list Restriction)
    (cleanPath : string) :
  restrictionLoop restrictions cleanPath = None <->
  Forall (fun r => ~ patternMatches cleanPath r) restrictions.
Proof.
  induction restrictions as [|r rest IH].
  - simpl. split; [constructor | reflexivity].
  - destruct (restrictionLoop_cons r rest cleanPath) as [[Hm Heq]|[Hm Heq]]; rewrite Heq.
    + split; [discriminate |].
      intros HF. inversion HF; subst. contradiction.
    + rewrite IH. split.
      * intros HF. constructor; assumption.
      * intros HF. inversion HF; assumption.
Qed.

Lemma restrictionLoop_Some {D : Doublestar} (restrictions : list Restriction)
    (cleanPath : string) (r : Restriction) :
  restrictionLoop restrictions cleanPath = Some r ->
  exists before after,
    restrictions = before ++ r :: after /\
    Forall (fun r' => ~ patternMatches cleanPath r') before /\
    patternMatches cleanPath r.
Proof.
  induction restrictions as [|r0 rest IH]; [discriminate|].
  destruct (restrictionLoop_cons r0 rest cleanPath) as [[Hm Heq]|[Hm Heq]]; rewrite Heq.
  - intros [= <-]. exists [], rest. repeat split; [constructor | exact Hm].
  - intros Hrest. destruct (IH Hrest) as (before & after & -> & Hbefore & Hr).
    exists (r0 :: before), after. repeat split; [constructor; assumption | exact Hr].
Qed.

Lemma restrictionLoop_first {D : Doublestar} (before after : list Restriction)
    (cleanPath : string) (r : Restriction) :
  Forall (fun r' => ~ patternMatches cleanPath r') before ->
  patternMatches cleanPath r ->
  restrictionLoop (before ++ r :: after) cleanPath = Some r.
Proof.
  induction before as [|r0 before IH]; intros Hbefore Hr.
  - destruct (restrictionLoop_cons r after cleanPath) as [[_ Heq]|[Hm _]];
      [exact Heq | contradiction].
  - inversion Hbefore as [|? ? Hr0 Hrest]; subst.
    destruct (restrictionLoop_cons r0 (before ++ r :: after) cleanPath)
      as [[Hm _]|[_ Heq]]; [contradiction|].
    simpl app. rewrite Heq. apply IH; assumption.
Qed.

(** C4: [GetRestrictionForPath] returns the first restriction, in the
    order of declaration, whose pattern matches the path made relative to
    the root (the root prefix removed, then the leading and trailing
    separators), and it returns the default restriction, by running its loop
    to the end, exactly when no declared pattern matches; being a function
    of the restrictions and the two paths, its choice is determined by
    them. *)
Theorem GetRestrictionForPath_first_match (D : Doublestar) (rc : RestrictionsConfig)
    (path rootDir : string) :
  let cleanPath := strings_Trim (strings_TrimPrefix path rootDir) separatorString in
  let noMatch := fun r => ~ patternMatches cleanPath r in
  ((exists before r after,
       Restrictions rc = before ++ r :: after /\
       Forall noMatch before /\ patternMatches cleanPath r /\
       restrictionLoop (Restrictions rc) cleanPath = Some r /\
       GetRestrictionForPath rc path rootDir = r) \/
   (Forall noMatch (Restrictions rc) /\
    restrictionLoop (Restrictions rc) cleanPath = None /\
    GetRestrictionForPath rc path rootDir = defaultRestriction)) /\
  (forall before r after,
      Restrictions rc = before ++ r :: after ->
      Forall noMatch before -> patternMatches cleanPath r ->
      GetRestrictionForPath rc path rootDir = r) /\
  (restrictionLoop (Restrictions rc) cleanPath = None <->
   Forall noMatch (Restrictions rc)) /\
  (~ In defaultRestriction (Restrictions rc) ->
   (GetRestrictionForPath rc path rootDir = defaultRestriction <->
    Forall noMatch (Restrictions rc))).
Proof.
  intros cleanPath noMatch.
  assert (Hget : GetRestrictionForPath rc path rootDir =
                 match restrictionLoop (Restrictions rc) cleanPath with
                 | Some r => r
                 | None => defaultRestriction
                 end) by reflexivity.
  split; [|split; [|split]].
  - destruct (restrictionLoop (Restrictions rc) cleanPath) as [r|] eqn:Hloop.
    + left. destruct (restrictionLoop_Some _ _ _ Hloop) as (before & after & Heq & Hb & Hr).
      exists before, r, after. auto.
    + right. split; [apply restrictionLoop_None; exact Hloop | auto].
  - intros before r after Heq Hb Hr.
    rewrite Hget, Heq, (restrictionLoop_first before after cleanPath r Hb Hr).
    reflexivity.
  - apply restrictionLoop_None.
  - intros Hnotin. rewrite Hget.
    destruct (restrictionLoop (Restrictions rc) cleanPath) as [r|] eqn:Hloop.
    + destruct (restrictionLoop_Some _ _ _ Hloop) as (before & after & Heq & _ & Hr).
      split.
      * intros ->. exfalso. apply Hnotin. rewrite Heq.
        apply in_or_app. right. left. reflexivity.
      * intros HF. apply restrictionLoop_None in HF.
        fold cleanPath in HF. congruence.
    + split; [intros _; apply restrictionLoop_None; exact Hloop | reflexivity].
Qed.

(** *** Restrictions that were loaded *)

Lemma compileAllowedGroups_length {C : RegexpCompiler} (path : string)
    (allowedGroups : list string) (acc res : list Regexp) :
  compileAllowedGroups path allowedGroups acc = (res, None) ->
  length res = length acc + length allowedGroups.
Proof.
  revert acc. induction allowedGroups as [|g gs IH]; intros acc; simpl.
  - intros [= <-]. lia.
  - destruct (regexp_Compile g) as [re [e|]]; [discriminate|].
    intros Hrest. apply IH in Hrest. rewrite Hrest, length_app. simpl. lia.
Qed.

Lemma compileRestrictions_compiled {C : RegexpCompiler}
    (restrictions ret out : list Restriction) :
  compileRestrictions restrictions ret = (out, None) ->
  Forall compiled ret -> Forall compiled out.
Proof.
  revert ret. induction restrictions as [|r rs IH]; intros ret; simpl.
  - intros [= <-] Hret. exact Hret.
  - destruct (compileAllowedGroups (Path r) (AllowedGroups r) []) as [res [e|]] eqn:Hres;
      [discriminate|].
    intros Hrest Hret. apply (IH _ Hrest).
    rewrite List.Forall_forall in *. intros r' Hin.
    apply in_app_or in Hin. destruct Hin as [Hin|[<-|[]]]; [apply Hret, Hin|].
    unfold compiled. simpl. apply compileAllowedGroups_length in Hres. exact Hres.
Qed.

(** After a successful [Load] every restriction is compiled: the default
    restriction, which has an expression and no pattern, is none of the
    declared ones, and a restriction without patterns has no expression. *)
Lemma Load_compiled {C : RegexpCompiler} (rc0 rc : RestrictionsConfig) (path : string)
    (file : FileOutcome RestrictionsConfig) :
  RestrictionsConfig_Load rc0 path file = (rc, None) ->
  Forall compiled (Restrictions rc) /\
  ~ In defaultRestriction (Restrictions rc) /\
  (forall r, In r (Restrictions rc) -> AllowedGroups r = [] -> AllowedGroupsRe r = []).
Proof.
  unfold RestrictionsConfig_Load. destruct file as [e|e partial|parsed]; try discriminate.
  destruct (compileRestrictions (Restrictions parsed) []) as [ret [e|]] eqn:Hret;
    [discriminate|].
  intros [= <-]. simpl.
  assert (Hall : Forall compiled ret).
  { apply (compileRestrictions_compiled _ _ _ Hret). constructor. }
  split; [exact Hall|]. rewrite List.Forall_forall in Hall. split.
  - intros Hin. apply Hall in Hin. discriminate.
  - intros r Hin Hnil. apply Hall in Hin. unfold compiled in Hin.
    rewrite Hnil in Hin. destruct (AllowedGroupsRe r); [reflexivity | discriminate].
Qed.

(** C8: every string matches the allowed-group patterns of the default
    restriction, so a merge under the default restriction never fails on
    the restriction check: its only errors are the empty identity and the
    duplicate.  The default restriction is the one of every path that no
    declared pattern matches, so this holds of the merge of every fragment at
    such a path. *)
Theorem defaultRestriction_permits_all :
  (forall s : string, matchesRegexList s (AllowedGroupsRe defaultRestriction) = true) /\
  (forall (a b merged : list GoogleGroup) (e : error),
      mergeGroups a b defaultRestriction = (merged, Some e) ->
      e = ErrGroupsMustHaveEmailId \/
      exists v, In v b /\ In (EmailId v) (map EmailId a) /\
                e = ErrDuplicateGroupName (EmailId v)) /\
  (forall (D : Doublestar) (rc : RestrictionsConfig) (path rootDir : string)
          (a b merged : list GoogleGroup) (e : error),
      Forall (fun r => ~ patternMatches (cleanPathOf path rootDir) r) (Restrictions rc) ->
      mergeGroups a b (GetRestrictionForPath rc path rootDir) = (merged, Some e) ->
      e = ErrGroupsMustHaveEmailId \/
      exists v, In v b /\ In (EmailId v) (map EmailId a) /\
                e = ErrDuplicateGroupName (EmailId v)).
Proof.
  assert (Hdefault : forall (a b merged : list GoogleGroup) (e : error),
      mergeGroups a b defaultRestriction = (merged, Some e) ->
      e = ErrGroupsMustHaveEmailId \/
      exists v, In v b /\ In (EmailId v) (map EmailId a) /\
                e = ErrDuplicateGroupName (EmailId v)).
  { intros a b merged e Hm.
    destruct (mergeGroups_result a b defaultRestriction) as [[_ Hok]|(e' & Hc & Herr)].
    { rewrite Hok in Hm. discriminate. }
    rewrite Herr in Hm. injection Hm as _ <-.
    apply checkGroups_Some in Hc.
    destruct Hc as (v & Hv & [[_ ->]|[(_ & Hno & _)|(_ & _ & Hin & ->)]]).
    + left. reflexivity.
    + rewrite matchesRegexList_default in Hno. discriminate.
    + right. exists v. rewrite collectEmails_empty in Hin. auto. }
  split; [exact matchesRegexList_default | split; [exact Hdefault|]].
  intros D rc path rootDir a b merged e Hnone.
  apply restrictionLoop_None in Hnone.
  unfold GetRestrictionForPath. rewrite Hnone. apply Hdefault.
Qed.




(** ** The calls of a run *)

(** ** Traces that follow a script *)

Lemma cons_eq_app_inv {T : Type} (x y : T) (l before after : list T) :
  x :: l = before ++ y :: after ->
  (before = [] /\ x = y /\ l = after) \/
  (exists before', before = x :: before' /\ l = before' ++ y :: after).
Proof.
  destruct before as [|b before']; simpl; intros [= -> ->].
  - left. auto.
  - right. exists before'. auto.
Qed.

Lemma played_head c calls final trace log err :
  played (c :: calls) final trace log err ->
  exists res trace', trace = (c, res) :: trace'.
Proof. intros Hp. inversion Hp; subst; eauto. Qed.

Lemma played_app_abort calls1 calls2 final trace log e :
  played calls1 None trace log (Some e) ->
  played (calls1 ++ calls2) final trace log (Some e).
Proof.
  intros Hp. remember None as fin eqn:Hfin. remember (Some e) as err eqn:Herr.
  induction Hp; subst; simpl.
  - discriminate.
  - apply played_ok. auto.
  - injection Herr as ->. apply played_abort. assumption.
  - apply played_logged; auto.
Qed.

Lemma played_app calls1 calls2 final trace1 trace2 log1 log2 err :
  played calls1 None trace1 log1 None ->
  played calls2 final trace2 log2 err ->
  played (calls1 ++ calls2) final (trace1 ++ trace2) (log1 ++ log2) err.
Proof.
  intros Hp1 Hp2. remember None as fin eqn:Hfin.
  remember fin as err1 eqn:Herr in Hp1 at 2. rewrite Hfin in Herr. clear Hfin.
  revert Herr. induction Hp1; intros Herr; simpl.
  - exact Hp2.
  - apply played_ok. auto.
  - discriminate.
  - apply played_logged; auto.
Qed.

(** Every failed call of a trace that follows [calls]: when it adds plain
    members its error is in the log and the next call is on record, a
    removal; otherwise it is the last call on record and its error is the
    error of the run. *)
Lemma played_failure calls final trace log err :
  played calls final trace log err ->
  removalAfterMemberAdd calls ->
  forall before c e after,
    trace = before ++ (c, Some e) :: after ->
    if isMemberAdd c then
      In e log /\ exists c' res after', after = (c', res) :: after' /\ isRemoval c' = true
    else after = [] /\ err = Some e.
Proof.
  induction 1 as [final|c0 calls final trace log err Hp IH|c0 calls final e0 Hc0
                 |c0 calls final e0 trace log err Hc0 Hp IH];
    intros Hscript before c e after Heq.
  - destruct before; discriminate.
  - apply cons_eq_app_inv in Heq.
    destruct Heq as [(_ & [=] & _)|(before' & -> & ->)].
    apply (IH (proj2 Hscript) before' c e after). reflexivity.
  - apply cons_eq_app_inv in Heq.
    destruct Heq as [(_ & [= <- <-] & <-)|(before' & _ & Hnil)].
    + rewrite Hc0. auto.
    + destruct before'; discriminate.
  - apply cons_eq_app_inv in Heq.
    destruct Hscript as [Hnext Hscript].
    destruct Heq as [(_ & [= <- <-] & <-)|(before' & -> & ->)].
    + rewrite Hc0. split; [left; reflexivity|].
      specialize (Hnext Hc0). destruct calls as [|c' calls']; [contradiction|].
      destruct (played_head _ _ _ _ _ _ Hp) as (res & trace' & ->).
      exists c', res, trace'. auto.
    + specialize (IH Hscript before' c e after eq_refl).
      destruct (isMemberAdd c); [|exact IH].
      destruct IH as [Hin Hafter]. split; [right; exact Hin | exact Hafter].
Qed.

(** The error of a trace that follows [calls] is the final one or the
    error of its last call, which is not the call that adds plain members. *)
Lemma played_error calls final trace log err :
  played calls final trace log err ->
  forall e, err = Some e ->
    final = Some e \/
    exists before c, trace = before ++ [(c, Some e)] /\ isMemberAdd c = false.
Proof.
  induction 1 as [final|c0 calls final trace log err Hp IH|c0 calls final e0 Hc0
                 |c0 calls final e0 trace log err Hc0 Hp IH]; intros e He.
  - left. exact He.
  - destruct (IH e He) as [Hfin|(before & c & -> & Hc)]; [left; exact Hfin|].
    right. exists ((c0, None) :: before), c. auto.
  - injection He as ->. right. exists [], c0. auto.
  - destruct (IH e He) as [Hfin|(before & c & -> & Hc)]; [left; exact Hfin|].
    right. exists ((c0, Some e0) :: before), c. auto.
Qed.

(** A trace with no error has made all the calls, and its only failed calls
    are calls that add plain members. *)
Lemma played_complete calls final trace log err :
  played calls final trace log err -> err = None ->
  final = None /\ map fst trace = calls /\
  (forall c, In c calls -> isMemberAdd c = false -> In (c, None) trace) /\
  (forall c e, In (c, Some e) trace -> isMemberAdd c = true).
Proof.
  induction 1 as [final|c0 calls final trace log err Hp IH|c0 calls final e0 Hc0
                 |c0 calls final e0 trace log err Hc0 Hp IH]; intros Herr.
  - split; [exact Herr | split; [reflexivity | split]].
    + intros c [].
    + intros c e [].
  - destruct (IH Herr) as (Hfin & Hmap & Hall & Hfail).
    split; [exact Hfin | split; [|split]].
    + simpl. rewrite Hmap. reflexivity.
    + intros c [<-|Hin] Hc; [left; reflexivity | right; auto].
    + intros c e [[=]|Hin]. eauto.
  - discriminate.
  - destruct (IH Herr) as (Hfin & Hmap & Hall & Hfail).
    split; [exact Hfin | split; [|split]].
    + simpl. rewrite Hmap. reflexivity.
    + intros c [<-|Hin] Hc; [congruence | right; auto].
    + intros c e [[= <- <-]|Hin]; eauto.
Qed.


(** ** The script of a run *)

Lemma mapIndex_true (m : gmap string string) (key : string) :
  String.eqb (mapIndex m key) "true" = bool_decide (m !! key = Some "true").
Proof.
  unfold mapIndex. destruct (m !! key) as [v|]; simpl.
  - destruct (String.eqb_spec v "true") as [->|Hne].
    + symmetry. apply bool_decide_eq_true_2. reflexivity.
    + symmetry. apply bool_decide_eq_false_2. congruence.
  - reflexivity.
Qed.

Lemma removalCall_isRemoval (g : GoogleGroup) :
  isRemoval (removalCall g) = true /\ isMemberAdd (removalCall g) = false.
Proof. unfold removalCall. destruct (bool_decide _); split; reflexivity. Qed.

Lemma scriptCalls_removalAfterMemberAdd (groups : list GoogleGroup) :
  removalAfterMemberAdd (scriptCalls groups).
Proof.
  induction groups as [|g groups IH]; simpl.
  - split; [discriminate | exact I].
  - destruct (String.eqb (EmailId g) ""); [exact I|].
    destruct (removalCall_isRemoval g) as [Hrem Hadd].
    simpl. repeat (split; [try discriminate|]).
    + intros _. exact Hrem.
    + rewrite Hadd. discriminate.
    + exact IH.
Qed.

Lemma scriptError_Some (groups : list GoogleGroup) (e : error) :
  scriptError groups = Some e ->
  exists g, In g groups /\ EmailId g = "" /\ e = ErrGroupHasNoEmailId g.
Proof.
  induction groups as [|g groups IH]; simpl; [discriminate|].
  destruct (String.eqb_spec (EmailId g) "") as [Hid|Hid].
  - intros [= <-]. exists g. auto.
  - intros He. destruct (IH He) as (g' & Hin & Hg'). exists g'. auto.
Qed.

Lemma scriptError_None (groups : list GoogleGroup) :
  scriptError groups = None ->
  (forall g, In g groups -> In (AdminSetGroup g) (scriptCalls groups)) /\
  exists calls, scriptCalls groups = calls ++ [DeleteGroups].
Proof.
  induction groups as [|g groups IH]; simpl.
  - intros _. split; [intros g [] | exists []; reflexivity].
  - destruct (String.eqb (EmailId g) ""); [discriminate|].
    intros Hnone. destruct (IH Hnone) as [Hall (calls & Hcalls)]. split.
    + intros g' [<-|Hin]; [left; reflexivity|].
      do 8 right. apply Hall, Hin.
    + rewrite Hcalls.
      exists ([ AdminSetGroup g; GroupSetGroup g; CreateOrUpdateGroup; UpdateSettings;
                AddOrUpdateMembers ownerRole (Owners g);
                AddOrUpdateMembers managerRole (Managers g);
                AddOrUpdateMembers memberRole (Members g);
                removalCall g ] ++ calls).
      reflexivity.
Qed.


(** ** The run over the recording services follows the script *)

Section Recorded.

Context {W : Type} {A : AdminService W} {G : GroupService W}.

Ltac run_step :=
  match goal with
  | |- context [CreateOrUpdateGroupIfNescessary ?w] =>
      destruct (CreateOrUpdateGroupIfNescessary w) as [? [?|]]
  | |- context [UpdateGroupSettings ?w] =>
      destruct (UpdateGroupSettings w) as [? [?|]]
  | |- context [AddOrUpdateGroupMembers ?role ?ms ?w] =>
      destruct (AddOrUpdateGroupMembers role ms w) as [? [?|]]
  | |- context [RemoveMembersFromGroup ?ms ?w] =>
      destruct (RemoveMembersFromGroup ms w) as [? [?|]]
  | |- context [RemoveOwnerOrManagersFromGroup ?ms ?w] =>
      destruct (RemoveOwnerOrManagersFromGroup ms w) as [? [?|]]
  | |- context [DeleteGroupsIfNecessary ?w] =>
      destruct (DeleteGroupsIfNecessary w) as [? [?|]]
  end; simpl.

Ltac run_done :=
  do 2 eexists; split; [reflexivity|]; simpl; rewrite <- ?app_assoc; simpl;
  eexists;
  first [ exists []; split; [reflexivity|]; split; [symmetry; apply app_nil_r|];
          repeat constructor
        | eexists; split; [reflexivity|]; split; [reflexivity|]; repeat constructor ].

(** One iteration, for a group with an identity. *)
Lemma recordedGroup_played (g : GoogleGroup) (w : W) (tr : list Event) (lg : list error) :
  EmailId g <> "" ->
  exists s' err,
    recordedGroup g {| world := (w, tr); logged := lg |} = (s', err) /\
    exists new lg',
      snd (world s') = tr ++ new /\ logged s' = lg ++ lg' /\
      played (groupSteps g) None new lg' err.
Proof.
  intros Hid. unfold recordedGroup, reconcileGroup.
  destruct (String.eqb_spec (EmailId g) "") as [|_]; [contradiction|].
  unfold andThen at 1 2 3 4 5 6 7. unfold exec, call, orLog, log_Println. simpl.
  unfold groupSteps, removalCall.
  repeat first [ run_step | rewrite mapIndex_true; destruct (bool_decide _); simpl ];
    rewrite <- ?(app_assoc (Owners g)); run_done.
Qed.

(** The whole loop and the final deletion pass. *)
Lemma recordedGroups_played (groups : list GoogleGroup) :
  forall (w : W) (tr : list Event) (lg : list error),
  exists s' err,
    recordedGroups groups {| world := (w, tr); logged := lg |} = (s', err) /\
    exists new lg',
      snd (world s') = tr ++ new /\ logged s' = lg ++ lg' /\
      played (scriptCalls groups) (scriptError groups) new lg' err.
Proof.
  induction groups as [|g groups IH]; intros w tr lg.
  - unfold recordedGroups. simpl. unfold call. simpl. run_step; run_done.
  - unfold recordedGroups. simpl. unfold andThen at 1.
    destruct (String.eqb_spec (EmailId g) "") as [Hid|Hid].
    + unfold reconcileGroup. rewrite Hid. simpl.
      do 2 eexists. split; [reflexivity|]. exists [], []. simpl.
      rewrite !app_nil_r. repeat split. constructor.
    + destruct (recordedGroup_played g w tr lg Hid)
        as (s1 & err1 & Hrun & new & lg' & Htr & Hlg & Hp).
      unfold recordedGroup in Hrun. rewrite Hrun.
      destruct err1 as [e|].
      * exists s1, (Some e). split; [reflexivity|]. exists new, lg'.
        repeat split; [assumption..|]. apply (played_app_abort (groupSteps g) (scriptCalls groups)). exact Hp.
      * destruct s1 as [[w1 tr1] lg1]. simpl in Htr, Hlg. subst tr1 lg1.
        destruct (IH w1 (tr ++ new) (lg ++ lg'))
          as (s2 & err2 & Hrun2 & new2 & lg2 & Htr2 & Hlg2 & Hp2).
        cbv beta iota.
        exists s2, err2. split; [exact Hrun2|]. exists (new ++ new2), (lg' ++ lg2).
        rewrite !app_assoc. repeat split; [assumption..|].
        apply (played_app (groupSteps g) (scriptCalls groups)); assumption.
Qed.

Lemma recordedRun_played (groups : list GoogleGroup) (w : W)
    (trace : list Event) (log : list error) (err : option error) :
  recordedRun groups w = (trace, log, err) ->
  played (scriptCalls groups) (scriptError groups) trace log err.
Proof.
  unfold recordedRun.
  destruct (recordedGroups_played groups w [] [])
    as (s' & err' & Hrun & new & lg' & Htr & Hlg & Hp).
  unfold recordedGroups in Hrun. rewrite Hrun, Htr, Hlg. simpl.
  intros [= <- <- <-]. exact Hp.
Qed.

End Recorded.

(** ** Properties of [reconcileGroups] *)

(** C5: in the record of a run, a failed call that adds plain members (role
    MEMBER) has its error in the log and is followed by the removal call, so
    the run goes on; any other failed call is the last call of the run,
    whose error it is.  The run therefore returns an error only for a group
    without identity or for a last, failed call that is not the addition of
    plain members, and a run that returns no error has been through every
    group and ends with the deletion pass. *)
Theorem member_add_error_logged_others_abort {W : Type} (A : AdminService W)
    (G : GroupService W) (groups : list GoogleGroup) (w : W)
    (trace : list Event) (log : list error) (err : option error) :
  recordedRun groups w = (trace, log, err) ->
  (forall before c e after,
      trace = before ++ (c, Some e) :: after ->
      if isMemberAdd c then
        In e log /\
        exists c' res after', after = (c', res) :: after' /\ isRemoval c' = true
      else after = [] /\ err = Some e) /\
  (forall e, err = Some e ->
      (exists g, In g groups /\ EmailId g = "" /\ e = ErrGroupHasNoEmailId g) \/
      (exists before c, trace = before ++ [(c, Some e)] /\ isMemberAdd c = false)) /\
  (err = None ->
      (forall g, In g groups -> In (AdminSetGroup g, None) trace) /\
      exists before, trace = before ++ [(DeleteGroups, None)]).
Proof.
  intros Hrun. apply recordedRun_played in Hrun. split; [|split].
  - apply (played_failure _ _ _ _ _ Hrun), scriptCalls_removalAfterMemberAdd.
  - intros e He. destruct (played_error _ _ _ _ _ Hrun e He) as [Hfin|Hlast].
    + left. apply scriptError_Some. exact Hfin.
    + right. exact Hlast.
  - intros Herr.
    destruct (played_complete _ _ _ _ _ Hrun Herr) as (Hfin & Hmap & Hall & Hfail).
    destruct (scriptError_None groups Hfin) as [Hset (calls & Hcalls)]. split.
    + intros g Hg. apply Hall; [apply Hset, Hg | reflexivity].
    + rewrite Hcalls in Hmap. apply map_eq_app in Hmap.
      destruct Hmap as (before & last & -> & _ & Hlast).
      destruct last as [|[c res] [|? ?]]; try discriminate.
      injection Hlast as ->. exists before.
      destruct res as [e|]; [|reflexivity].
      assert (Hin : In (DeleteGroups, Some e) (before ++ [(DeleteGroups, Some e)])).
      { apply in_or_app. right. left. reflexivity. }
      apply Hfail in Hin. discriminate.
Qed.



Lemma member_add_error_logged_others_abort_witness :
  In (errorString "member not found") (snd (fst exampleRun)) /\
  exists c' res after',
    skipn 7 (fst (fst exampleRun)) = (c', res) :: after' /\ isRemoval c' = true.
Proof.
  refine (proj1 (member_add_error_logged_others_abort scriptedAdmin scriptedGroup
                   exampleGroups memberAddFails
                   (fst (fst exampleRun)) (snd (fst exampleRun)) (snd exampleRun) _)
            (firstn 6 (fst (fst exampleRun)))
            (AddOrUpdateMembers memberRole ["p@x.com"])
            (errorString "member not found")
            (skipn 7 (fst (fst exampleRun))) _).
  - vm_compute. reflexivity.
  - vm_compute. reflexivity.
Defined.


(** ** The scenarios of the specification, run on the definitions *)

Example cleanPath_of_fragment :
  cleanPathOf "/groups/team/sub/groups.yaml" "/groups" = "team/sub/groups.yaml".
Proof. reflexivity. Qed.

(** A single fragment at the root and no restriction: the merge succeeds. *)
Example Load_single_fragment :
  GroupsConfig_Load (D := simpleGlob) {| Groups := [] |} "/groups" {| Restrictions := [] |}
    [ {| entryPath := "/groups"; entryErr := None;
         entryFile := ReadFails (errorString "is a directory") |};
      {| entryPath := "/groups/groups.yaml"; entryErr := None;
         entryFile := Parses {| Groups := [groupNamed "a@x.com"] |} |} ] =
  ({| Groups := [groupNamed "a@x.com"] |}, None).
Proof. vm_compute. reflexivity. Qed.

(** A fragment under [team/**] that defines a group outside [^team-.*]. *)
Example Load_restriction_violation :
  GroupsConfig_Load (D := simpleGlob) {| Groups := [] |} "/groups"
    {| Restrictions := [teamRestriction] |}
    [ {| entryPath := "/groups/team/sub/groups.yaml"; entryErr := None;
         entryFile := Parses {| Groups := [groupNamed "other@x.com"] |} |} ] =
  ({| Groups := [] |}, Some (ErrCouldntMerge (ErrCannotDefineGroup "other@x.com" "team/**"))).
Proof. vm_compute. reflexivity. Qed.

Example Load_restriction_respected :
  GroupsConfig_Load (D := simpleGlob) {| Groups := [] |} "/groups"
    {| Restrictions := [teamRestriction] |}
    [ {| entryPath := "/groups/team/sub/groups.yaml"; entryErr := None;
         entryFile := Parses {| Groups := [groupNamed "team-a@x.com"] |} |} ] =
  ({| Groups := [groupNamed "team-a@x.com"] |}, None).
Proof. vm_compute. reflexivity. Qed.

(** A restriction with a malformed pattern only: the path gets the default
    restriction. *)
Example malformed_only_gives_default :
  GetRestrictionForPath (D := simpleGlob) {| Restrictions := [malformedRestriction] |}
    "/groups/team/sub/groups.yaml" "/groups" = defaultRestriction.
Proof. reflexivity. Qed.

(** The record of the example run: the failed addition of the plain members
    of the first group is followed by its removal call and by the second
    group, whose removal call is the narrow one. *)
Example exampleRun_record :
  map fst (fst (fst exampleRun)) =
    [ AdminSetGroup reconciledGroup; GroupSetGroup reconciledGroup;
      CreateOrUpdateGroup; UpdateSettings;
      AddOrUpdateMembers "OWNER" ["o@x.com"];
      AddOrUpdateMembers "MANAGER" ["m@x.com"];
      AddOrUpdateMembers "MEMBER" ["p@x.com"];
      RemoveMembers ["o@x.com"; "m@x.com"; "p@x.com"];
      AdminSetGroup (groupNamed "b@x.com"); GroupSetGroup (groupNamed "b@x.com");
      CreateOrUpdateGroup; UpdateSettings;
      AddOrUpdateMembers "OWNER" []; AddOrUpdateMembers "MANAGER" [];
      AddOrUpdateMembers "MEMBER" []; RemoveOwnerOrManagers [];
      DeleteGroups ] /\
  snd (fst exampleRun) = [errorString "member not found"] /\
  snd exampleRun = None.
Proof. vm_compute. repeat split. Qed.

(** * Further properties *)

(** ** [mergeGroups]: the first violation, uniqueness, composition *)

Lemma checkGroups_app_passes (emails : gset string) (r : Restriction)
    (ok rest : list GoogleGroup) :
  Forall (passes emails r) ok ->
  checkGroups emails r (ok ++ rest) = checkGroups emails r rest.
Proof.
  induction ok as [|v ok IH]; intros Hok; simpl; [reflexivity|].
  inversion Hok as [|? ? (Hid & Hre & Hnotin) Hok']; subst.
  destruct (String.eqb_spec (EmailId v) "") as [|_]; [contradiction|].
  rewrite Hre. simpl.
  rewrite (bool_decide_eq_false_2 _ Hnotin). apply IH, Hok'.
Qed.

Lemma Forall_passes_admissible (a b : list GoogleGroup) (r : Restriction) :
  Forall (passes (collectEmails a ∅) r) b <-> Forall (admissible a r) b.
Proof.
  rewrite !List.Forall_forall.
  split; intros Hall v Hv; apply passes_admissible, Hall, Hv.
Qed.

Lemma mergeGroups_None_inv (a b merged : list GoogleGroup) (r : Restriction) :
  mergeGroups a b r = (merged, None) -> merged = a ++ b /\ Forall (admissible a r) b.
Proof.
  intros Hm. destruct (mergeGroups_result a b r) as [[_ Hok]|(e & _ & Herr)].
  - split; [congruence|]. apply mergeGroups_ok_iff. exact Hok.
  - rewrite Herr in Hm. discriminate.
Qed.

(** X1: The groups of the fragment are checked in order and the first one that
    fails decides the error, whatever follows it; for that group the empty
    identity is reported before the restriction, and the restriction before
    the duplicate. *)
Theorem mergeGroups_first_violation (a ok rest : list GoogleGroup) (v : GoogleGroup)
    (r : Restriction) :
  Forall (admissible a r) ok ->
  (EmailId v = "" ->
   mergeGroups a (ok ++ v :: rest) r = ([], Some ErrGroupsMustHaveEmailId)) /\
  (EmailId v <> "" -> matchesRegexList (EmailId v) (AllowedGroupsRe r) = false ->
   mergeGroups a (ok ++ v :: rest) r =
     ([], Some (ErrCannotDefineGroup (EmailId v) (Path r)))) /\
  (EmailId v <> "" -> matchesRegexList (EmailId v) (AllowedGroupsRe r) = true ->
   In (EmailId v) (map EmailId a) ->
   mergeGroups a (ok ++ v :: rest) r = ([], Some (ErrDuplicateGroupName (EmailId v)))).
Proof.
  intros Hok. apply Forall_passes_admissible in Hok.
  unfold mergeGroups. rewrite (checkGroups_app_passes _ _ _ _ Hok). simpl.
  split; [|split].
  - intros ->. reflexivity.
  - intros Hid Hre. destruct (String.eqb_spec (EmailId v) "") as [|_]; [contradiction|].
    rewrite Hre. reflexivity.
  - intros Hid Hre Hin. destruct (String.eqb_spec (EmailId v) "") as [|_]; [contradiction|].
    rewrite Hre. simpl.
    rewrite bool_decide_eq_true_2 by (apply collectEmails_empty; exact Hin).
    reflexivity.
Qed.

Lemma mergeGroups_first_violation_witness :
  mergeGroups [groupNamed "a@x.com"]
    ([groupNamed "team-b@x.com"] ++ groupNamed "a@x.com" :: [groupNamed ""])
    teamRestriction =
  ([], Some (ErrCannotDefineGroup "a@x.com" "team/**")).
Proof.
  refine (proj1 (proj2 (mergeGroups_first_violation [groupNamed "a@x.com"]
            [groupNamed "team-b@x.com"] [groupNamed ""] (groupNamed "a@x.com")
            teamRestriction _)) _ _).
  - apply List.Forall_cons; [|apply List.Forall_nil].
    apply passes_admissible. unfold passes. vm_compute.
    repeat split; discriminate.
  - discriminate.
  - vm_compute. reflexivity.
Defined.

Lemma mergeGroups_NoDup (a b merged : list GoogleGroup) (r : Restriction) :
  List.NoDup (map EmailId a) -> List.NoDup (map EmailId b) ->
  mergeGroups a b r = (merged, None) ->
  List.NoDup (map EmailId merged).
Proof.
  intros Ha Hb Hm. apply mergeGroups_None_inv in Hm. destruct Hm as [-> Hadm].
  rewrite map_app. rewrite List.Forall_forall in Hadm.
  induction a as [|x a IH]; simpl; [exact Hb|].
  inversion Ha as [|? ? Hx Ha']; subst. constructor.
  - intros Hin. apply in_app_or in Hin. destruct Hin as [Hin|Hin]; [contradiction|].
    apply in_map_iff in Hin. destruct Hin as (v & Hv & Hvb).
    destruct (Hadm v Hvb) as (_ & _ & Hnot). apply Hnot. left. symmetry. exact Hv.
  - apply IH; [exact Ha'|].
    intros v Hv. destruct (Hadm v Hv) as (Hid & Hre & Hnot).
    split; [exact Hid | split; [exact Hre|]]. intros Hin. apply Hnot. right. exact Hin.
Qed.

(** X2: A merge that succeeds keeps the identities distinct and non-empty,
    provided those of the fragment are distinct among themselves. *)
Theorem mergeGroups_keeps_identities_distinct (a b merged : list GoogleGroup)
    (r : Restriction) :
  List.NoDup (map EmailId a) -> List.NoDup (map EmailId b) ->
  Forall (fun v => EmailId v <> "") a ->
  mergeGroups a b r = (merged, None) ->
  List.NoDup (map EmailId merged) /\ Forall (fun v => EmailId v <> "") merged.
Proof.
  intros Ha Hb Hne Hm. split; [exact (mergeGroups_NoDup a b merged r Ha Hb Hm)|].
  apply mergeGroups_None_inv in Hm. destruct Hm as [-> Hadm].
  rewrite List.Forall_forall in *. intros v Hv.
  apply in_app_or in Hv. destruct Hv as [Hv|Hv]; [apply Hne, Hv|].
  destruct (Hadm v Hv) as [Hid _]. exact Hid.
Qed.

Lemma mergeGroups_keeps_identities_distinct_witness :
  List.NoDup (map EmailId [groupNamed "a@x.com"; groupNamed "b@x.com"; groupNamed "c@x.com"]) /\
  Forall (fun v => EmailId v <> "")
    [groupNamed "a@x.com"; groupNamed "b@x.com"; groupNamed "c@x.com"].
Proof.
  apply (mergeGroups_keeps_identities_distinct [groupNamed "a@x.com"]
           [groupNamed "b@x.com"; groupNamed "c@x.com"] _ defaultRestriction).
  - repeat constructor. intros [].
  - repeat constructor; simpl; intros H; repeat destruct H as [H|H]; try discriminate; auto.
  - apply List.Forall_cons; [discriminate | apply List.Forall_nil].
  - vm_compute. reflexivity.
Defined.

(** X3: Merging two fragments one after the other succeeds exactly when merging
    them at once succeeds and no identity of the second is one of the first;
    the merged list is the same. *)
Theorem mergeGroups_sequential_iff (a b1 b2 merged : list GoogleGroup) (r : Restriction) :
  (exists m1, mergeGroups a b1 r = (m1, None) /\ mergeGroups m1 b2 r = (merged, None)) <->
  (mergeGroups a (b1 ++ b2) r = (merged, None) /\
   forall v, In v b2 -> ~ In (EmailId v) (map EmailId b1)).
Proof.
  split.
  - intros (m1 & H1 & H2).
    apply mergeGroups_None_inv in H1. destruct H1 as [-> Hb1].
    apply mergeGroups_None_inv in H2. destruct H2 as [-> Hb2].
    rewrite List.Forall_forall in Hb1, Hb2. split.
    + rewrite <- app_assoc. apply mergeGroups_ok_iff. apply List.Forall_forall.
      intros v Hv. apply in_app_or in Hv. destruct Hv as [Hv|Hv]; [apply Hb1, Hv|].
      destruct (Hb2 v Hv) as (Hid & Hre & Hnot). split; [exact Hid | split; [exact Hre|]].
      intros Hin. apply Hnot. rewrite map_app. apply in_or_app. left. exact Hin.
    + intros v Hv Hin. destruct (Hb2 v Hv) as (_ & _ & Hnot).
      apply Hnot. rewrite map_app. apply in_or_app. right. exact Hin.
  - intros [Hm Hdisj]. apply mergeGroups_None_inv in Hm. destruct Hm as [-> Hall].
    rewrite List.Forall_forall in Hall. exists (a ++ b1). split.
    + apply mergeGroups_ok_iff. apply List.Forall_forall.
      intros v Hv. apply Hall. apply in_or_app. left. exact Hv.
    + rewrite app_assoc. apply mergeGroups_ok_iff. apply List.Forall_forall.
      intros v Hv. destruct (Hall v (in_or_app _ _ _ (or_intror Hv))) as (Hid & Hre & Hnot).
      split; [exact Hid | split; [exact Hre|]].
      rewrite map_app. intros Hin. apply in_app_or in Hin.
      destruct Hin as [Hin|Hin]; [exact (Hnot Hin) | exact (Hdisj v Hv Hin)].
Qed.

(** ** The path relative to the root *)

Lemma append_String (c : ascii) (s x : string) : String c s +:+ x = String c (s +:+ x).
Proof. reflexivity. Qed.

Lemma strings_HasPrefix_append (p x : string) : strings_HasPrefix (p +:+ x) p = true.
Proof.
  induction p as [|c p IH]; simpl; [destruct x; reflexivity|].
  rewrite Ascii.eqb_refl. exact IH.
Qed.

Lemma sliceFrom_append (p x : string) : sliceFrom (String.length p) (p +:+ x) = x.
Proof. induction p as [|c p IH]; simpl; [reflexivity | exact IH]. Qed.

Lemma strings_TrimPrefix_append (p x : string) : strings_TrimPrefix (p +:+ x) p = x.
Proof.
  unfold strings_TrimPrefix. rewrite strings_HasPrefix_append. apply sliceFrom_append.
Qed.

Lemma inCutset_separator (c : ascii) :
  inCutset c separatorString = Ascii.eqb c filepath_Separator.
Proof. simpl. apply orb_false_r. Qed.

Lemma strings_TrimLeft_fixed (x : string) :
  firstByte x <> Some filepath_Separator -> strings_TrimLeft x separatorString = x.
Proof.
  destruct x as [|c x]; [reflexivity|]. intros Hc.
  cbn [strings_TrimLeft]. rewrite inCutset_separator.
  destruct (Ascii.eqb_spec c filepath_Separator) as [->|_]; [|reflexivity].
  exfalso. apply Hc. reflexivity.
Qed.

Lemma strings_TrimLeft_separators (pre x : string) :
  onlySeparators pre = true -> firstByte x <> Some filepath_Separator ->
  strings_TrimLeft (pre +:+ x) separatorString = x.
Proof.
  intros Hpre Hx. induction pre as [|c pre IH].
  - apply strings_TrimLeft_fixed, Hx.
  - simpl in Hpre. apply andb_prop in Hpre. destruct Hpre as [Hc Hpre].
    rewrite append_String. cbn [strings_TrimLeft]. rewrite inCutset_separator, Hc. apply IH, Hpre.
Qed.

Lemma strings_TrimRight_separators_only (post : string) :
  onlySeparators post = true -> strings_TrimRight post separatorString = "".
Proof.
  induction post as [|c post IH]; [reflexivity|]. simpl onlySeparators.
  intros Hpost. apply andb_prop in Hpost. destruct Hpost as [Hc Hpost].
  cbn [strings_TrimRight]. rewrite (IH Hpost), inCutset_separator, Hc. reflexivity.
Qed.

Lemma strings_TrimRight_separators (x post : string) :
  onlySeparators post = true -> lastByte x <> Some filepath_Separator ->
  strings_TrimRight (x +:+ post) separatorString = x.
Proof.
  intros Hpost. induction x as [|c x IH]; intros Hx.
  - apply strings_TrimRight_separators_only, Hpost.
  - rewrite append_String. cbn [strings_TrimRight]. simpl lastByte in Hx.
    destruct x as [|d x].
    + change ("" +:+ post) with post. rewrite (strings_TrimRight_separators_only _ Hpost).
      rewrite inCutset_separator.
      destruct (Ascii.eqb_spec c filepath_Separator) as [->|_]; [|reflexivity].
      exfalso. apply Hx. reflexivity.
    + rewrite IH; [reflexivity|].
      destruct (lastByte (String d x)) as [e|] eqn:Hlast; [exact Hx|].
      simpl in Hlast. destruct (lastByte x); discriminate.
Qed.

(** X4: For a path made of the root, separators, a relative path that neither
    begins nor ends with a separator, and trailing separators, the path
    given to the glob matcher is that relative path. *)
Theorem cleanPathOf_relative (rootDir pre rel post : string) :
  onlySeparators pre = true -> onlySeparators post = true ->
  firstByte rel <> Some filepath_Separator ->
  lastByte rel <> Some filepath_Separator ->
  cleanPathOf (rootDir +:+ pre +:+ rel +:+ post) rootDir = rel.
Proof.
  intros Hpre Hpost Hfirst Hlast. unfold cleanPathOf, strings_Trim.
  rewrite strings_TrimPrefix_append.
  destruct rel as [|c rel].
  - assert (Hall : onlySeparators (pre +:+ "" +:+ post) = true).
    { clear -Hpre Hpost. induction pre as [|d pre IH]; simpl in *; [exact Hpost|].
      apply andb_prop in Hpre. destruct Hpre as [-> Hpre]. simpl. apply IH, Hpre. }
    assert (Hleft : forall s, onlySeparators s = true ->
                              strings_TrimLeft s separatorString = "").
    { intros s. induction s as [|d s IH]; [reflexivity|]. simpl onlySeparators.
      intros Hs. apply andb_prop in Hs. destruct Hs as [Hd Hs].
      cbn [strings_TrimLeft]. rewrite inCutset_separator, Hd. apply IH, Hs. }
    rewrite (Hleft _ Hall). reflexivity.
  - rewrite strings_TrimLeft_separators.
    + apply strings_TrimRight_separators; assumption.
    + exact Hpre.
    + simpl. simpl in Hfirst. exact Hfirst.
Qed.

Lemma cleanPathOf_relative_witness :
  cleanPathOf ("/srv/groups" +:+ "/" +:+ "team/sub/groups.yaml" +:+ "") "/srv/groups" =
  "team/sub/groups.yaml".
Proof.
  apply (cleanPathOf_relative "/srv/groups" "/" "team/sub/groups.yaml" "").
  - reflexivity.
  - reflexivity.
  - discriminate.
  - discriminate.
Defined.

Lemma strings_TrimLeft_first (s : string) :
  firstByte (strings_TrimLeft s separatorString) <> Some filepath_Separator.
Proof.
  induction s as [|c s IH]; [discriminate|].
  cbn [strings_TrimLeft]. rewrite inCutset_separator.
  destruct (Ascii.eqb_spec c filepath_Separator) as [->|Hc]; [exact IH|].
  simpl. congruence.
Qed.

Lemma strings_TrimRight_ends (s : string) :
  lastByte (strings_TrimRight s separatorString) <> Some filepath_Separator /\
  (firstByte s <> Some filepath_Separator ->
   firstByte (strings_TrimRight s separatorString) <> Some filepath_Separator).
Proof.
  induction s as [|c s [IHlast IHfirst]]; [split; discriminate|].
  cbn [strings_TrimRight].
  destruct (strings_TrimRight s separatorString) as [|d t] eqn:Ht.
  - rewrite inCutset_separator.
    destruct (Ascii.eqb_spec c filepath_Separator) as [->|Hc]; simpl.
    + split; [discriminate|]. intros Hf. exfalso. apply Hf. reflexivity.
    + split; congruence.
  - split.
    + change (lastByte (String c (String d t))) with
        (match lastByte (String d t) with None => Some c | Some e => Some e end).
      destruct (lastByte (String d t)) as [e|] eqn:Hlast; [exact IHlast|].
      simpl in Hlast. destruct (lastByte t); discriminate.
    + simpl. intros Hf. exact Hf.
Qed.

(** X5: The path given to the glob matcher never begins or ends with a
    separator, whatever the path and the root. *)
Theorem cleanPathOf_no_separator_at_ends (path rootDir : string) :
  firstByte (cleanPathOf path rootDir) <> Some filepath_Separator /\
  lastByte (cleanPathOf path rootDir) <> Some filepath_Separator.
Proof.
  unfold cleanPathOf, strings_Trim.
  destruct (strings_TrimRight_ends
              (strings_TrimLeft (strings_TrimPrefix path rootDir) separatorString))
    as [Hlast Hfirst].
  split; [apply Hfirst, strings_TrimLeft_first | exact Hlast].
Qed.

(** ** [RestrictionsConfig.Load] *)

Lemma compileAllowedGroups_ok {C : RegexpCompiler} (path : string)
    (allowedGroups : list string) (acc res : list Regexp) :
  compileAllowedGroups path allowedGroups acc = (res, None) <->
  Forall compiles allowedGroups /\
  res = acc ++ map (fun g => fst (regexp_Compile g)) allowedGroups.
Proof.
  revert acc. induction allowedGroups as [|g gs IH]; intros acc; simpl.
  - rewrite app_nil_r. split.
    + intros [= <-]. split; [constructor | reflexivity].
    + intros [_ ->]. reflexivity.
  - unfold compiles at 1.
    destruct (regexp_Compile g) as [re [e|]] eqn:Hg.
    + split; [discriminate|]. intros [HF _].
      inversion HF as [|? ? Hc _]; subst. unfold compiles in Hc.
      rewrite Hg in Hc. discriminate.
    + rewrite IH, <- app_assoc. simpl. split.
      * intros [HF ->]. split; [|reflexivity].
        constructor; [unfold compiles; rewrite Hg; reflexivity | exact HF].
      * intros [HF ->]. split; [inversion HF; assumption | reflexivity].
Qed.

Lemma compileAllowedGroups_bad {C : RegexpCompiler} (path : string)
    (before after : list string) (g : string) (re : Regexp) (e : error)
    (acc : list Regexp) :
  Forall compiles before -> regexp_Compile g = (re, Some e) ->
  snd (compileAllowedGroups path (before ++ g :: after) acc) =
    Some (ErrParsingGroupPattern g path e).
Proof.
  intros Hbefore Hg. revert acc.
  induction Hbefore as [|g0 before Hg0 _ IH]; intros acc; simpl.
  - rewrite Hg. reflexivity.
  - unfold compiles in Hg0. destruct (regexp_Compile g0) as [re0 [e0|]];
      [discriminate|]. apply IH.
Qed.

Lemma compileRestrictions_ok {C : RegexpCompiler} (restrictions ret out : list Restriction) :
  compileRestrictions restrictions ret = (out, None) <->
  Forall (fun r => Forall compiles (AllowedGroups r)) restrictions /\
  out = ret ++ map compiledRestriction restrictions.
Proof.
  revert ret. induction restrictions as [|r rs IH]; intros ret; simpl.
  - rewrite app_nil_r. split.
    + intros [= <-]. split; [constructor | reflexivity].
    + intros [_ ->]. reflexivity.
  - destruct (compileAllowedGroups (Path r) (AllowedGroups r) []) as [res [e|]] eqn:Hres.
    + split; [discriminate|]. intros [HF _].
      inversion HF as [|? ? Hr _]; subst.
      assert (Hok : compileAllowedGroups (Path r) (AllowedGroups r) [] =
                    ([] ++ map (fun g => fst (regexp_Compile g)) (AllowedGroups r), None)).
      { apply compileAllowedGroups_ok. split; [exact Hr | reflexivity]. }
      rewrite Hok in Hres. discriminate.
    + apply compileAllowedGroups_ok in Hres. destruct Hres as [Hr ->].
      rewrite IH, <- app_assoc. simpl. split.
      * intros [HF ->]. split; [constructor; assumption | reflexivity].
      * intros [HF ->]. split; [inversion HF; assumption | reflexivity].
Qed.

Lemma compileRestrictions_bad {C : RegexpCompiler} (before after ret : list Restriction)
    (r : Restriction) (e : error) :
  Forall (fun r => Forall compiles (AllowedGroups r)) before ->
  snd (compileAllowedGroups (Path r) (AllowedGroups r) []) = Some e ->
  snd (compileRestrictions (before ++ r :: after) ret) = Some e.
Proof.
  intros Hbefore Hr. revert ret.
  induction Hbefore as [|r0 before Hr0 _ IH]; intros ret; simpl.
  - destruct (compileAllowedGroups (Path r) (AllowedGroups r) []) as [res [e'|]];
      simpl in Hr; [|discriminate]. injection Hr as ->. reflexivity.
  - assert (Hok : compileAllowedGroups (Path r0) (AllowedGroups r0) [] =
                  ([] ++ map (fun g => fst (regexp_Compile g)) (AllowedGroups r0), None)).
    { apply compileAllowedGroups_ok. split; [exact Hr0 | reflexivity]. }
    rewrite Hok. apply IH.
Qed.

(** X6: [Load] succeeds on a parsed file exactly when every pattern of every
    restriction compiles; the receiver then holds the parsed restrictions, in
    their order, each with its path, its patterns and the compiled patterns
    in the order of the patterns. *)
Theorem RestrictionsConfig_Load_success (C : RegexpCompiler)
    (rc0 parsed : RestrictionsConfig) (path : string) :
  ((exists rc, RestrictionsConfig_Load rc0 path (Parses parsed) = (rc, None)) <->
   Forall (fun r => Forall compiles (AllowedGroups r)) (Restrictions parsed)) /\
  (forall rc, RestrictionsConfig_Load rc0 path (Parses parsed) = (rc, None) ->
     rc = {| Restrictions := map compiledRestriction (Restrictions parsed) |}).
Proof.
  unfold RestrictionsConfig_Load.
  destruct (compileRestrictions (Restrictions parsed) []) as [ret [e|]] eqn:Hret.
  - split.
    + split; [intros [rc [=]]|].
      intros HF.
      assert (Hok : compileRestrictions (Restrictions parsed) [] =
                    ([] ++ map compiledRestriction (Restrictions parsed), None)).
      { apply compileRestrictions_ok. split; [exact HF | reflexivity]. }
      rewrite Hok in Hret. discriminate.
    + intros rc [=].
  - apply compileRestrictions_ok in Hret. destruct Hret as [HF ->]. split.
    + split; [intros _; exact HF | intros _; eexists; reflexivity].
    + intros rc [= <-]. reflexivity.
Qed.

(** X7: When a pattern does not compile, [Load] returns the error of the first
    such pattern, in the order of the restrictions and of their patterns, with
    the pattern and the path of its restriction, and the receiver holds the
    parsed restrictions, none of them compiled. *)
Theorem RestrictionsConfig_Load_first_bad_pattern (C : RegexpCompiler)
    (rc0 parsed : RestrictionsConfig) (path : string)
    (before after : list Restriction) (r : Restriction)
    (good rest : list string) (g : string) (re : Regexp) (e : error) :
  Restrictions parsed = before ++ r :: after ->
  AllowedGroups r = good ++ g :: rest ->
  Forall (fun r => Forall compiles (AllowedGroups r)) before ->
  Forall compiles good ->
  regexp_Compile g = (re, Some e) ->
  RestrictionsConfig_Load rc0 path (Parses parsed) =
    (parsed, Some (ErrParsingGroupPattern g (Path r) e)).
Proof.
  intros Hparsed Hr Hbefore Hgood Hg. unfold RestrictionsConfig_Load.
  assert (Hbad : snd (compileRestrictions (Restrictions parsed) []) =
                 Some (ErrParsingGroupPattern g (Path r) e)).
  { rewrite Hparsed. apply compileRestrictions_bad; [exact Hbefore|].
    rewrite Hr. eapply compileAllowedGroups_bad; eassumption. }
  destruct (compileRestrictions (Restrictions parsed) []) as [ret [e'|]];
    simpl in Hbad; [|discriminate].
  injection Hbad as ->. reflexivity.
Qed.

Lemma RestrictionsConfig_Load_first_bad_pattern_witness :
  let parsed :=
    {| Restrictions :=
         [ {| Path := "team/**"; AllowedGroups := ["team-"]; AllowedGroupsRe := [] |};
           {| Path := "sig/**"; AllowedGroups := ["sig-"; "("; "wg-"];
              AllowedGroupsRe := [] |} ] |} in
  RestrictionsConfig_Load (C := literalCompiler) {| Restrictions := [] |}
    "restrictions.yaml" (Parses parsed) =
  (parsed, Some (ErrParsingGroupPattern "(" "sig/**" (errorString "missing closing )"))).
Proof.
  intros parsed.
  apply (RestrictionsConfig_Load_first_bad_pattern literalCompiler _ parsed _
           [ {| Path := "team/**"; AllowedGroups := ["team-"]; AllowedGroupsRe := [] |} ] []
           {| Path := "sig/**"; AllowedGroups := ["sig-"; "("; "wg-"];
              AllowedGroupsRe := [] |}
           ["sig-"] ["wg-"] "(" OpNoMatch (errorString "missing closing )")).
  - reflexivity.
  - reflexivity.
  - repeat constructor.
  - repeat constructor.
  - reflexivity.
Defined.

(** X8: For restrictions that were loaded, the restriction of a path is the
    default one exactly when no declared pattern matches the path. *)
Theorem loaded_default_iff_no_match (C : RegexpCompiler) (D : Doublestar)
    (rc0 rc : RestrictionsConfig) (restrictionsPath : string)
    (file : FileOutcome RestrictionsConfig) (path rootDir : string) :
  RestrictionsConfig_Load rc0 restrictionsPath file = (rc, None) ->
  (GetRestrictionForPath rc path rootDir = defaultRestriction <->
   Forall (fun r => ~ patternMatches (cleanPathOf path rootDir) r) (Restrictions rc)).
Proof.
  intros Hload. apply Load_compiled in Hload. destruct Hload as (_ & Hnotin & _).
  unfold GetRestrictionForPath. rewrite <- restrictionLoop_None.
  destruct (restrictionLoop (Restrictions rc) (cleanPathOf path rootDir)) as [r|] eqn:Hloop.
  - split; [|discriminate]. intros ->. exfalso. apply Hnotin.
    destruct (restrictionLoop_Some _ _ _ Hloop) as (before & after & -> & _).
    apply in_or_app. right. left. reflexivity.
  - split; reflexivity.
Qed.

Lemma loaded_default_iff_no_match_witness :
  let rc := {| Restrictions :=
                 [compiledRestriction (C := literalCompiler)
                    {| Path := "team/**"; AllowedGroups := ["team-"];
                       AllowedGroupsRe := [] |}] |} in
  GetRestrictionForPath (D := simpleGlob) rc "/groups/sig/groups.yaml" "/groups" =
    defaultRestriction <->
  Forall (fun r => ~ patternMatches (D := simpleGlob)
                     (cleanPathOf "/groups/sig/groups.yaml" "/groups") r)
         (Restrictions rc).
Proof.
  intros rc.
  apply (loaded_default_iff_no_match literalCompiler simpleGlob {| Restrictions := [] |} rc
           "restrictions.yaml"
           (Parses {| Restrictions :=
                        [ {| Path := "team/**"; AllowedGroups := ["team-"];
                             AllowedGroupsRe := [] |} ] |})).
  reflexivity.
Defined.

(** ** [GroupsConfig.Load] *)

Lemma loadEntry_failure {D : Doublestar} (rootDir : string) (restrictions : RestrictionsConfig)
    (en : WalkEntry) (gc : GroupsConfig) (e : error) :
  entryFailure en = Some e -> loadEntry rootDir restrictions en gc = (gc, Some e).
Proof.
  unfold entryFailure, loadEntry, isGroupsFile.
  destruct (entryErr en) as [err|]; [intros [= ->]; reflexivity|].
  destruct (String.eqb (filepath_Base (entryPath en)) "groups.yaml"); [|discriminate].
  destruct (entryFile en) as [err|err partial|parsed]; try discriminate;
    intros [= <-]; reflexivity.
Qed.

Lemma loadEntry_result {D : Doublestar} (rootDir : string) (restrictions : RestrictionsConfig)
    (en : WalkEntry) (gc gc' : GroupsConfig) (err : option error) :
  loadEntry rootDir restrictions en gc = (gc', err) ->
  match err with
  | Some e =>
      gc' = gc /\
      (entryFailure en = Some e \/
       entryFailure en = None /\
       exists e', e = ErrCouldntMerge e' /\
         mergeGroups (Groups gc) (fragmentGroups en)
           (GetRestrictionForPath restrictions (entryPath en) rootDir) = ([], Some e'))
  | None =>
      entryFailure en = None /\
      Groups gc' = Groups gc ++ fragmentGroups en /\
      Forall (admissible (Groups gc)
                (GetRestrictionForPath restrictions (entryPath en) rootDir))
             (fragmentGroups en)
  end.
Proof.
  unfold loadEntry, entryFailure, fragmentGroups, isGroupsFile.
  destruct (entryErr en) as [werr|].
  { intros [= <- <-]. split; [reflexivity | left; reflexivity]. }
  destruct (String.eqb (filepath_Base (entryPath en)) "groups.yaml").
  2:{ intros [= <- <-]. rewrite app_nil_r. repeat split. constructor. }
  destruct (entryFile en) as [rerr|perr partial|parsed].
  - intros [= <- <-]. split; [reflexivity | left; reflexivity].
  - intros [= <- <-]. split; [reflexivity | left; reflexivity].
  - destruct (mergeGroups_result (Groups gc) (Groups parsed)
                (GetRestrictionForPath restrictions (entryPath en) rootDir))
      as [[_ Hok]|(e' & _ & Herr)].
    + rewrite Hok. intros [= <- <-]. simpl.
      repeat split. apply mergeGroups_ok_iff. exact Hok.
    + rewrite Herr. intros [= <- <-]. split; [reflexivity|].
      right. split; [reflexivity|]. exists e'. split; reflexivity.
Qed.

(** X9: Whatever the outcome, the receiver holds the groups it had, followed by
    the groups of the [groups.yaml] files visited before the walk stopped, in
    the order of the walk; after a successful [Load] these are all the
    entries, and none of them failed. *)
Theorem Load_accumulates_visited_fragments (D : Doublestar) (rootDir : string)
    (restrictions : RestrictionsConfig) (entries : list WalkEntry)
    (gc0 gc : GroupsConfig) (err : option error) :
  GroupsConfig_Load gc0 rootDir restrictions entries = (gc, err) ->
  exists visited rest,
    entries = visited ++ rest /\
    Groups gc = Groups gc0 ++ concat (map fragmentGroups visited) /\
    Forall (fun en => entryFailure en = None) visited /\
    (err = None <-> rest = []).
Proof.
  unfold GroupsConfig_Load. revert gc0.
  induction entries as [|en entries IH]; intros gc0; simpl.
  - intros [= <- <-]. exists [], []. simpl. rewrite app_nil_r.
    repeat split; constructor.
  - destruct (loadEntry rootDir restrictions en gc0) as [gc1 [e|]] eqn:Hen;
      apply loadEntry_result in Hen.
    + destruct Hen as [-> _]. intros [= <- <-]. exists [], (en :: entries). simpl.
      rewrite app_nil_r. repeat split; try constructor; discriminate.
    + destruct Hen as (Hnone & Hgroups & _). intros Hrest.
      destruct (IH gc1 Hrest) as (visited & rest & -> & Hgc & Hvisited & Herr).
      exists (en :: visited), rest. simpl.
      rewrite Hgc, Hgroups, <- app_assoc.
      repeat split; try constructor; try assumption; apply Herr.
Qed.

Lemma Load_accumulates_visited_fragments_witness :
  exists visited rest,
    [firstFragment; secondFragment] = visited ++ rest /\
    [groupNamed "one@x.com"; groupNamed "dup@x.com"] =
      [] ++ concat (map fragmentGroups visited) /\
    Forall (fun en => entryFailure en = None) visited /\
    (Some (ErrCouldntMerge (ErrDuplicateGroupName "dup@x.com")) = None <-> rest = []).
Proof.
  apply (Load_accumulates_visited_fragments simpleGlob "/groups" {| Restrictions := [] |}
           [firstFragment; secondFragment] {| Groups := [] |}
           {| Groups := [groupNamed "one@x.com"; groupNamed "dup@x.com"] |}).
  vm_compute. reflexivity.
Defined.

(** X10: The walk stops on the first entry that fails: an error of the walk is
    returned as it is, also for an entry named [groups.yaml], and a
    [groups.yaml] that cannot be read or parsed gives the error that names it;
    the receiver holds what was accumulated before and the later entries play
    no part. *)
Theorem Load_stops_at_first_failure (D : Doublestar) (rootDir : string)
    (restrictions : RestrictionsConfig) (before after : list WalkEntry) (en : WalkEntry)
    (gc0 gc1 : GroupsConfig) (e : error) :
  GroupsConfig_Load gc0 rootDir restrictions before = (gc1, None) ->
  entryFailure en = Some e ->
  GroupsConfig_Load gc0 rootDir restrictions (before ++ en :: after) = (gc1, Some e).
Proof.
  unfold GroupsConfig_Load. intros Hbefore Hen.
  rewrite (filepath_Walk_app _ _ _ _ _ Hbefore). simpl.
  rewrite (loadEntry_failure _ _ _ _ _ Hen). reflexivity.
Qed.

Lemma Load_stops_at_first_failure_witness :
  GroupsConfig_Load (D := simpleGlob) {| Groups := [] |} "/groups" {| Restrictions := [] |}
    ([firstFragment] ++
     {| entryPath := "/groups/b/groups.yaml"; entryErr := Some (errorString "permission denied");
        entryFile := Parses {| Groups := [groupNamed "two@x.com"] |} |} :: [secondFragment]) =
  ({| Groups := [groupNamed "one@x.com"; groupNamed "dup@x.com"] |},
   Some (errorString "permission denied")).
Proof.
  apply (Load_stops_at_first_failure simpleGlob).
  - vm_compute. reflexivity.
  - reflexivity.
Defined.

(** X11: Entries that have no error of the walk and are not named [groups.yaml]
    play no part: the result is the one of the walk without them. *)
Theorem Load_ignores_other_files (D : Doublestar) (rootDir : string)
    (restrictions : RestrictionsConfig) (entries : list WalkEntry) (gc0 : GroupsConfig) :
  GroupsConfig_Load gc0 rootDir restrictions (List.filter isRelevant entries) =
  GroupsConfig_Load gc0 rootDir restrictions entries.
Proof.
  unfold GroupsConfig_Load. revert gc0.
  induction entries as [|en entries IH]; intros gc0; simpl; [reflexivity|].
  destruct (isRelevant en) eqn:Hrel; simpl.
  - destruct (loadEntry rootDir restrictions en gc0) as [gc1 [e|]]; [reflexivity | apply IH].
  - unfold isRelevant in Hrel. unfold loadEntry.
    destruct (entryErr en); [discriminate|].
    unfold isGroupsFile in Hrel. rewrite Hrel. apply IH.
Qed.

Lemma Load_fragments_admissible {D : Doublestar} (rootDir : string)
    (restrictions : RestrictionsConfig) (entries : list WalkEntry) (gc0 gc : GroupsConfig) :
  GroupsConfig_Load gc0 rootDir restrictions entries = (gc, None) ->
  forall before en after, entries = before ++ en :: after ->
    Forall (admissible (Groups gc0 ++ concat (map fragmentGroups before))
              (GetRestrictionForPath restrictions (entryPath en) rootDir))
           (fragmentGroups en).
Proof.
  unfold GroupsConfig_Load. revert gc0.
  induction entries as [|en0 entries IH]; intros gc0 Hload before en after Heq.
  - destruct before; discriminate.
  - simpl in Hload.
    destruct (loadEntry rootDir restrictions en0 gc0) as [gc1 [e|]] eqn:Hen0;
      [discriminate|].
    apply loadEntry_result in Hen0. destruct Hen0 as (_ & Hgroups & Hadm).
    destruct before as [|b before]; simpl in Heq; injection Heq as <- ->.
    + simpl. rewrite app_nil_r. exact Hadm.
    + specialize (IH gc1 Hload before en after eq_refl).
      rewrite Hgroups, <- app_assoc in IH. exact IH.
Qed.

(** X12: After a successful [Load], every group of every fragment has a
    non-empty identity that the restriction of the fragment's path allows. *)
Theorem Load_groups_allowed_at_their_path (D : Doublestar) (rootDir : string)
    (restrictions : RestrictionsConfig) (entries : list WalkEntry) (gc0 gc : GroupsConfig) :
  GroupsConfig_Load gc0 rootDir restrictions entries = (gc, None) ->
  forall en v, In en entries -> In v (fragmentGroups en) ->
    EmailId v <> "" /\
    matchesRegexList (EmailId v)
      (AllowedGroupsRe (GetRestrictionForPath restrictions (entryPath en) rootDir)) = true.
Proof.
  intros Hload en v Hen Hv. apply in_split in Hen. destruct Hen as (before & after & Heq).
  pose proof (Load_fragments_admissible _ _ _ _ _ Hload before en after Heq) as Hadm.
  rewrite List.Forall_forall in Hadm. destruct (Hadm v Hv) as (Hid & Hre & _).
  split; [exact Hid | apply matchesRegexList_Exists; exact Hre].
Qed.

Lemma Load_groups_allowed_at_their_path_witness :
  EmailId (groupNamed "team-a@x.com") <> "" /\
  matchesRegexList (EmailId (groupNamed "team-a@x.com"))
    (AllowedGroupsRe
       (GetRestrictionForPath (D := simpleGlob) {| Restrictions := [teamRestriction] |}
          "/groups/team/sub/groups.yaml" "/groups")) = true.
Proof.
  apply (Load_groups_allowed_at_their_path simpleGlob "/groups"
           {| Restrictions := [teamRestriction] |}
           [ {| entryPath := "/groups/team/sub/groups.yaml"; entryErr := None;
                entryFile := Parses {| Groups := [groupNamed "team-a@x.com"] |} |} ]
           {| Groups := [] |} {| Groups := [groupNamed "team-a@x.com"] |}
           ltac:(vm_compute; reflexivity)
           {| entryPath := "/groups/team/sub/groups.yaml"; entryErr := None;
              entryFile := Parses {| Groups := [groupNamed "team-a@x.com"] |} |}).
  - left. reflexivity.
  - left. reflexivity.
Defined.

(** X13: After a successful [Load] the identities of the accumulated groups are
    distinct and non-empty, provided they were so before and no fragment
    repeats an identity within itself. *)
Theorem Load_identities_distinct (D : Doublestar) (rootDir : string)
    (restrictions : RestrictionsConfig) (entries : list WalkEntry) (gc0 gc : GroupsConfig) :
  List.NoDup (map EmailId (Groups gc0)) ->
  Forall (fun v => EmailId v <> "") (Groups gc0) ->
  Forall (fun en => List.NoDup (map EmailId (fragmentGroups en))) entries ->
  GroupsConfig_Load gc0 rootDir restrictions entries = (gc, None) ->
  List.NoDup (map EmailId (Groups gc)) /\ Forall (fun v => EmailId v <> "") (Groups gc).
Proof.
  unfold GroupsConfig_Load. revert gc0.
  induction entries as [|en entries IH]; intros gc0 Hnodup Hne Hfrags; simpl.
  - intros [= <-]. split; assumption.
  - destruct (loadEntry rootDir restrictions en gc0) as [gc1 [e|]] eqn:Hen; [discriminate|].
    apply loadEntry_result in Hen. destruct Hen as (_ & Hgroups & Hadm).
    inversion Hfrags as [|? ? Hfrag Hfrags']; subst.
    assert (Hmerge : mergeGroups (Groups gc0) (fragmentGroups en)
                       (GetRestrictionForPath restrictions (entryPath en) rootDir) =
                     (Groups gc1, None)).
    { rewrite Hgroups. apply mergeGroups_ok_iff. exact Hadm. }
    apply IH; [| |exact Hfrags'].
    + exact (mergeGroups_NoDup _ _ _ _ Hnodup Hfrag Hmerge).
    + rewrite Hgroups. rewrite List.Forall_forall in *. intros v Hv.
      apply in_app_or in Hv. destruct Hv as [Hv|Hv]; [apply Hne, Hv|].
      destruct (Hadm v Hv) as [Hid _]. exact Hid.
Qed.

Lemma Load_identities_distinct_witness :
  List.NoDup (map EmailId [groupNamed "one@x.com"; groupNamed "dup@x.com"]) /\
  Forall (fun v => EmailId v <> "") [groupNamed "one@x.com"; groupNamed "dup@x.com"].
Proof.
  apply (Load_identities_distinct simpleGlob "/groups" {| Restrictions := [] |}
           [firstFragment] {| Groups := [] |}
           {| Groups := [groupNamed "one@x.com"; groupNamed "dup@x.com"] |}).
  - constructor.
  - constructor.
  - apply List.Forall_cons; [|apply List.Forall_nil].
    vm_compute. repeat constructor; simpl; intros H;
      repeat destruct H as [H|H]; try discriminate; auto.
  - vm_compute. reflexivity.
Defined.

(** ** [reconcileGroups]: the order of the calls, the log, the deletion pass *)

Lemma played_prefix calls final trace log err :
  played calls final trace log err -> exists rest, calls = map fst trace ++ rest.
Proof.
  induction 1 as [final|c0 calls final trace log err Hp [rest ->]|c0 calls final e0 Hc0
                 |c0 calls final e0 trace log err Hc0 Hp [rest ->]].
  - exists []. reflexivity.
  - exists rest. reflexivity.
  - exists calls. reflexivity.
  - exists rest. reflexivity.
Qed.

Lemma played_log calls final trace log err :
  played calls final trace log err -> log = memberAddErrors trace.
Proof.
  induction 1 as [final|c0 calls final trace log err Hp IH|c0 calls final e0 Hc0
                 |c0 calls final e0 trace log err Hc0 Hp IH]; simpl.
  - reflexivity.
  - exact IH.
  - rewrite Hc0. reflexivity.
  - rewrite Hc0, IH. reflexivity.
Qed.

(** A record whose last call succeeded has made all the calls, and the
    error of the run is the final one. *)
Lemma played_last_ok calls final trace log err :
  played calls final trace log err ->
  forall before c, trace = before ++ [(c, None)] ->
    err = final /\ map fst trace = calls.
Proof.
  induction 1 as [final|c0 calls final trace log err Hp IH|c0 calls final e0 Hc0
                 |c0 calls final e0 trace log err Hc0 Hp IH]; intros before c Heq.
  - destruct before; discriminate.
  - destruct before as [|b before]; simpl in Heq.
    + injection Heq as _ ->. inversion Hp; subst. split; reflexivity.
    + injection Heq as _ Heq. destruct (IH before c Heq) as [-> <-]. split; reflexivity.
  - destruct before as [|b [|b' before]]; discriminate.
  - destruct before as [|b before]; simpl in Heq; [discriminate|].
    injection Heq as _ Heq. destruct (IH before c Heq) as [-> <-]. split; reflexivity.
Qed.

Lemma scriptError_nonempty (groups : list GoogleGroup) :
  Forall (fun g => EmailId g <> "") groups ->
  scriptError groups = None /\ scriptCalls groups = concat (map groupSteps groups) ++ [DeleteGroups].
Proof.
  induction 1 as [|g groups Hg _ [IHe IHc]]; simpl; [split; reflexivity|].
  destruct (String.eqb_spec (EmailId g) "") as [|_]; [contradiction|].
  split; [exact IHe|]. rewrite IHc. reflexivity.
Qed.


Lemma groupSteps_calls (groups : list GoogleGroup) (c : Call) :
  In c (concat (map groupSteps groups)) ->
  c <> DeleteGroups /\ (forall g, c = AdminSetGroup g -> In g groups).
Proof.
  induction groups as [|g0 groups IH]; simpl; [intros []|].
  unfold removalCall.
  intros [<-|[<-|[<-|[<-|[<-|[<-|[<-|[<-|Hin]]]]]]]];
    try (split; [discriminate | intros g; try discriminate]).
  - intros [= ->]. left. reflexivity.
  - destruct (bool_decide _); split; try discriminate; intros g; discriminate.
  - destruct (IH Hin) as [Hne Hset]. split; [exact Hne|]. intros g Hg. right. auto.
Qed.

(** X14: The log of a run holds the errors of the failed additions of plain
    members, in the order of the calls, and nothing else. *)
Theorem log_is_failed_member_additions {W : Type} (A : AdminService W)
    (G : GroupService W) (groups : list GoogleGroup) (w : W)
    (trace : list Event) (log : list error) (err : option error) :
  recordedRun groups w = (trace, log, err) -> log = memberAddErrors trace.
Proof.
  intros Hrun. apply recordedRun_played in Hrun. exact (played_log _ _ _ _ _ Hrun).
Qed.

Lemma log_is_failed_member_additions_witness :
  snd (fst exampleRun) = memberAddErrors (fst (fst exampleRun)).
Proof.
  apply (log_is_failed_member_additions scriptedAdmin scriptedGroup exampleGroups
           memberAddFails _ _ (snd exampleRun)).
  vm_compute. reflexivity.
Defined.



Lemma scriptCalls_DeleteGroups (groups : list GoogleGroup) (pre post : list Call) :
  scriptCalls groups = pre ++ DeleteGroups :: post ->
  post = [] /\ pre = concat (map groupSteps groups) /\
  Forall (fun g => EmailId g <> "") groups.
Proof.
  revert pre. induction groups as [|g groups IH]; intros pre; simpl.
  - intros Heq. apply cons_eq_app_inv in Heq.
    destruct Heq as [(-> & _ & <-)|(pre' & _ & Hnil)].
    + repeat split. constructor.
    + destruct pre'; discriminate.
  - destruct (String.eqb_spec (EmailId g) "") as [|Hid]; [destruct pre; discriminate|].
    unfold groupSteps. simpl. intros Heq.
    assert (Hrem : removalCall g <> DeleteGroups).
    { unfold removalCall. destruct (bool_decide _); discriminate. }
    do 7 (apply cons_eq_app_inv in Heq;
          destruct Heq as [(_ & [=] & _)|(pre' & -> & Heq)]; rename pre' into pre).
    apply cons_eq_app_inv in Heq.
    destruct Heq as [(_ & Hdel & _)|(pre' & -> & Heq)]; [contradiction|].
    destruct (IH pre' Heq) as (-> & -> & Hall).
    repeat split. constructor; assumption.
Qed.

(** X16: The deletion pass is the last call of a run, made at most once, and only
    when every group has an identity and went through its removal call
    without error; its result is the result of the run. *)
Theorem deletion_pass_is_last {W : Type} (A : AdminService W)
    (G : GroupService W) (groups : list GoogleGroup) (w : W)
    (trace : list Event) (log : list error) (err : option error)
    (before after : list Event) (res : option error) :
  recordedRun groups w = (trace, log, err) ->
  trace = before ++ (DeleteGroups, res) :: after ->
  after = [] /\ err = res /\
  ~ In DeleteGroups (map fst before) /\
  Forall (fun g => EmailId g <> "") groups /\
  (forall g, In g groups -> In (removalCall g, None) before).
Proof.
  intros Hrun Htrace. apply recordedRun_played in Hrun.
  destruct (played_prefix _ _ _ _ _ Hrun) as [rest Hrest].
  rewrite Htrace, map_app in Hrest. simpl in Hrest. rewrite <- app_assoc in Hrest.
  simpl in Hrest.
  destruct (scriptCalls_DeleteGroups _ _ _ Hrest) as (Hpost & Hpre & Hall).
  apply app_eq_nil in Hpost. destruct Hpost as [Hafter _].
  apply map_eq_nil in Hafter. subst after.
  assert (Hok : forall c e, In (c, Some e) before -> isMemberAdd c = true).
  { intros c e Hin. apply in_split in Hin. destruct Hin as (l1 & l2 & ->).
    pose proof (played_failure _ _ _ _ _ Hrun (scriptCalls_removalAfterMemberAdd groups)
                  l1 c e (l2 ++ [(DeleteGroups, res)])) as Hf.
    rewrite Htrace, <- app_assoc in Hf. specialize (Hf eq_refl).
    destruct (isMemberAdd c); [reflexivity|].
    destruct Hf as [Hnil _]. destruct l2; discriminate. }
  split; [reflexivity | split; [|split; [|split; [exact Hall|]]]].
  - destruct res as [e|].
    + pose proof (played_failure _ _ _ _ _ Hrun (scriptCalls_removalAfterMemberAdd groups)
                    before DeleteGroups e [] Htrace) as Hf.
      simpl in Hf. destruct Hf as [_ Hf]. exact Hf.
    + destruct (played_last_ok _ _ _ _ _ Hrun before DeleteGroups Htrace) as [-> _].
      destruct (scriptError_nonempty groups Hall) as [-> _]. reflexivity.
  - intros Hin.
    assert (Hin' : In DeleteGroups (concat (map groupSteps groups)))
      by (rewrite <- Hpre; exact Hin).
    clear Hin. rename Hin' into Hin. apply groupSteps_calls in Hin.
    destruct Hin as [Hne _]. apply Hne. reflexivity.
  - intros g Hg.
    assert (Hcall : In (removalCall g) (concat (map groupSteps groups))).
    { apply in_concat. exists (groupSteps g). split.
      - apply in_map. exact Hg.
      - unfold groupSteps. do 7 right. left. reflexivity. }
    rewrite <- Hpre in Hcall. apply in_map_iff in Hcall. destruct Hcall as ([c [e|]] & Hc & Hin); simpl in Hc; subst c.
    + apply Hok in Hin. destruct (removalCall_isRemoval g) as [_ Hadd]. congruence.
    + exact Hin.
Qed.

Lemma deletion_pass_is_last_witness :
  skipn 17 (fst (fst exampleRun)) = [] /\ snd exampleRun = None /\
  ~ In DeleteGroups (map fst (firstn 16 (fst (fst exampleRun)))) /\
  Forall (fun g => EmailId g <> "") exampleGroups /\
  (forall g, In g exampleGroups -> In (removalCall g, None) (firstn 16 (fst (fst exampleRun)))).
Proof.
  apply (deletion_pass_is_last scriptedAdmin scriptedGroup exampleGroups memberAddFails
           (fst (fst exampleRun)) (snd (fst exampleRun)) (snd exampleRun)).
  - vm_compute. reflexivity.
  - vm_compute. reflexivity.
Defined.

Section Unrecorded.

Context {W : Type} {A : AdminService W} {G : GroupService W}.

Ltac step_both :=
  match goal with
  | |- context [CreateOrUpdateGroupIfNescessary ?w] =>
      destruct (CreateOrUpdateGroupIfNescessary w) as [? [?|]] eqn:?
  | |- context [UpdateGroupSettings ?w] =>
      destruct (UpdateGroupSettings w) as [? [?|]] eqn:?
  | |- context [AddOrUpdateGroupMembers ?role ?ms ?w] =>
      destruct (AddOrUpdateGroupMembers role ms w) as [? [?|]] eqn:?
  | |- context [RemoveMembersFromGroup ?ms ?w] =>
      destruct (RemoveMembersFromGroup ms w) as [? [?|]] eqn:?
  | |- context [RemoveOwnerOrManagersFromGroup ?ms ?w] =>
      destruct (RemoveOwnerOrManagersFromGroup ms w) as [? [?|]] eqn:?
  | |- context [DeleteGroupsIfNecessary ?w] =>
      destruct (DeleteGroupsIfNecessary w) as [? [?|]] eqn:?
  end; simpl.

(** The services under the recorder see the same calls: a run over the
    recording services and the run over the services themselves end in the
    same world, with the same log and the same error. *)
Lemma recordedGroup_transparent (g : GoogleGroup) (w : W) (tr : list Event)
    (lg : list error) :
  let '(s', err) := recordedGroup g {| world := (w, tr); logged := lg |} in
  reconcileGroup g {| world := w; logged := lg |} =
    ({| world := fst (world s'); logged := logged s' |}, err).
Proof.
  unfold recordedGroup, reconcileGroup.
  destruct (String.eqb (EmailId g) ""); [reflexivity|].
  unfold andThen at 1 2 3 4 5 6 7 8 9 10 11 12 13 14.
  unfold exec, call, orLog, log_Println. simpl.
  repeat first [ step_both | destruct (String.eqb (mapIndex _ _) "true"); simpl ];
    reflexivity.
Qed.

Lemma recordedGroups_transparent (groups : list GoogleGroup) :
  forall (w : W) (tr : list Event) (lg : list error),
  let '(s', err) := recordedGroups groups {| world := (w, tr); logged := lg |} in
  reconcileGroups groups {| world := w; logged := lg |} =
    ({| world := fst (world s'); logged := logged s' |}, err).
Proof.
  induction groups as [|g groups IH]; intros w tr lg.
  - unfold recordedGroups. simpl. unfold call. simpl. step_both; reflexivity.
  - unfold recordedGroups. cbn [reconcileGroups]. unfold andThen at 1 2.
    pose proof (recordedGroup_transparent g w tr lg) as Hg.
    unfold recordedGroup in Hg.
    destruct (@reconcileGroup (W * list Event) recordingAdmin recordingGroup g
                {| world := (w, tr); logged := lg |}) as [[[w1 tr1] lg1] [e|]].
    + rewrite Hg. reflexivity.
    + rewrite Hg. simpl. apply IH.
Qed.

End Unrecorded.

(** The error a run returns, over any services, is the error its record
    shows: [reconcileGroups] over the services themselves returns the error
    of the run over the recording services, with the same log. *)
Lemma recordedRun_unrecorded {W : Type} (A : AdminService W) (G : GroupService W)
    (groups : list GoogleGroup) (w : W) (trace : list Event) (log : list error)
    (err : option error) :
  recordedRun groups w = (trace, log, err) ->
  snd (reconcileGroups groups {| world := w; logged := [] |}) = err /\
  logged (fst (reconcileGroups groups {| world := w; logged := [] |})) = log.
Proof.
  unfold recordedRun. pose proof (recordedGroups_transparent groups w [] []) as Ht.
  unfold recordedGroups in Ht.
  destruct (@reconcileGroups (W * list Event) recordingAdmin recordingGroup groups
              {| world := (w, []); logged := [] |}) as [s' err'].
  rewrite Ht. simpl. intros [= _ <- <-]. split; reflexivity.
Qed.

Lemma Load_identities_nonempty {D : Doublestar} (rootDir : string)
    (restrictions : RestrictionsConfig) (entries : list WalkEntry) (gc0 gc : GroupsConfig) :
  Forall (fun v => EmailId v <> "") (Groups gc0) ->
  GroupsConfig_Load gc0 rootDir restrictions entries = (gc, None) ->
  Forall (fun v => EmailId v <> "") (Groups gc).
Proof.
  unfold GroupsConfig_Load. revert gc0.
  induction entries as [|en entries IH]; intros gc0 Hne; simpl.
  - intros [= <-]. exact Hne.
  - destruct (loadEntry rootDir restrictions en gc0) as [gc1 [e|]] eqn:Hen; [discriminate|].
    apply loadEntry_result in Hen. destruct Hen as (_ & Hgroups & Hadm).
    apply IH. rewrite Hgroups. rewrite List.Forall_forall in *. intros v Hv.
    apply in_app_or in Hv. destruct Hv as [Hv|Hv]; [apply Hne, Hv|].
    destruct (Hadm v Hv) as [Hid _]. exact Hid.
Qed.

(** X17: The groups of a successful [Load] from an empty configuration, as [main]
    gives them to [reconcileGroups], never make it fail for a missing
    identity: the run over any services returns an error only when its last
    call failed, with the error of that call, and that call is not the
    addition of plain members. *)
Theorem loaded_groups_reconcile_without_identity_error {W : Type} (D : Doublestar)
    (A : AdminService W) (G : GroupService W) (rootDir : string)
    (restrictions : RestrictionsConfig) (entries : list WalkEntry) (gc : GroupsConfig)
    (w : W) (e : error) :
  GroupsConfig_Load {| Groups := [] |} rootDir restrictions entries = (gc, None) ->
  snd (reconcileGroups (Groups gc) {| world := w; logged := [] |}) = Some e ->
  exists before c,
    fst (fst (recordedRun (Groups gc) w)) = before ++ [(c, Some e)] /\
    isMemberAdd c = false.
Proof.
  intros Hload Herr.
  destruct (recordedRun (Groups gc) w) as [[trace log] err] eqn:Hrun.
  destruct (recordedRun_unrecorded _ _ _ _ _ _ _ Hrun) as [Herr' _].
  rewrite Herr in Herr'. subst err. simpl.
  apply recordedRun_played in Hrun.
  apply Load_identities_nonempty in Hload; [|constructor].
  destruct (scriptError_nonempty _ Hload) as [Hfin _]. rewrite Hfin in Hrun.
  destruct (played_error _ _ _ _ _ Hrun e eq_refl) as [[=]|Hlast]. exact Hlast.
Qed.

Lemma loaded_groups_reconcile_without_identity_error_witness :
  exists before c,
    fst (fst (recordedRun (A := scriptedAdmin) (G := scriptedGroup)
                [groupNamed "one@x.com"; groupNamed "dup@x.com"]
                [None; Some (errorString "backend error")])) =
      before ++ [(c, Some (errorString "backend error"))] /\
    isMemberAdd c = false.
Proof.
  apply (loaded_groups_reconcile_without_identity_error simpleGlob scriptedAdmin
           scriptedGroup "/groups" {| Restrictions := [] |} [firstFragment]
           {| Groups := [groupNamed "one@x.com"; groupNamed "dup@x.com"] |}).
  - vm_compute. reflexivity.
  - vm_compute. reflexivity.
Defined.

Lemma recordedGroup_all_ok {W : Type} (A : AdminService W) (G : GroupService W)
    (g : GoogleGroup) (w : W) (tr : list Event) (lg : list error) :
  neverFails A G -> EmailId g <> "" ->
  exists w',
    recordedGroup g {| world := (w, tr); logged := lg |} =
      ({| world := (w', tr ++ map (fun c => (c, None)) (groupSteps g)); logged := lg |},
       None).
Proof.
  intros (Hcreate & Hupdate & Hadd & Hremove & Hnarrow & _) Hid.
  unfold recordedGroup, reconcileGroup.
  destruct (String.eqb_spec (EmailId g) "") as [|_]; [contradiction|].
  unfold andThen at 1 2 3 4 5 6 7. unfold exec, call, orLog, log_Println. simpl.
  unfold groupSteps, removalCall. rewrite mapIndex_true.
  repeat (match goal with
  | |- context [CreateOrUpdateGroupIfNescessary ?x] =>
      let E := fresh in
      pose proof (Hcreate x) as E;
      destruct (CreateOrUpdateGroupIfNescessary x) as [? [?|]]; [discriminate E|]; clear E
  | |- context [UpdateGroupSettings ?x] =>
      let E := fresh in
      pose proof (Hupdate x) as E;
      destruct (UpdateGroupSettings x) as [? [?|]]; [discriminate E|]; clear E
  | |- context [AddOrUpdateGroupMembers ?role ?ms ?x] =>
      let E := fresh in
      pose proof (Hadd role ms x) as E;
      destruct (AddOrUpdateGroupMembers role ms x) as [? [?|]]; [discriminate E|]; clear E
  end; simpl).
  destruct (bool_decide _); simpl.
  - match goal with |- context [RemoveMembersFromGroup ?ms ?x] =>
      pose proof (Hremove ms x) as E;
      destruct (RemoveMembersFromGroup ms x) as [w' [?|]]; [discriminate E|]
    end.
    simpl. exists w'. rewrite <- !app_assoc. reflexivity.
  - match goal with |- context [RemoveOwnerOrManagersFromGroup ?ms ?x] =>
      pose proof (Hnarrow ms x) as E;
      destruct (RemoveOwnerOrManagersFromGroup ms x) as [w' [?|]]; [discriminate E|]
    end.
    simpl. exists w'. rewrite <- !app_assoc. reflexivity.
Qed.

(** X18: When no call of the services fails, a run over groups that all have an
    identity makes, for each group in order, the calls of [groupSteps] (both
    services set to the group, creation or update, settings, owners,
    managers, plain members, removal), then the deletion pass, once; it logs
    nothing and returns no error. *)
Theorem reconcile_calls_when_nothing_fails {W : Type} (A : AdminService W)
    (G : GroupService W) (groups : list GoogleGroup) (w : W) :
  neverFails A G -> Forall (fun g => EmailId g <> "") groups ->
  recordedRun groups w =
    (map (fun c => (c, None)) (concat (map groupSteps groups) ++ [DeleteGroups]), [], None).
Proof.
  intros Hok Hids. unfold recordedRun.
  assert (Hgen : forall w tr lg, exists w',
             recordedGroups groups {| world := (w, tr); logged := lg |} =
               ({| world := (w', tr ++ map (fun c => (c, None))
                                    (concat (map groupSteps groups) ++ [DeleteGroups]));
                   logged := lg |}, None)).
  { clear w. induction Hids as [|g groups Hg _ IH]; intros w tr lg.
    - unfold recordedGroups. simpl. unfold call. simpl.
      destruct Hok as (_ & _ & _ & _ & _ & Hdel). pose proof (Hdel w) as E.
      destruct (DeleteGroupsIfNecessary w) as [w' [?|]]; [discriminate E|].
      exists w'. reflexivity.
    - unfold recordedGroups. simpl reconcileGroups. unfold andThen at 1.
      destruct (recordedGroup_all_ok A G g w tr lg Hok Hg) as [w1 Hrun].
      unfold recordedGroup in Hrun. rewrite Hrun.
      destruct (IH w1 (tr ++ map (fun c => (c, None)) (groupSteps g)) lg) as [w2 Hrest].
      exists w2. unfold recordedGroups in Hrest. rewrite Hrest.
      change (concat (map groupSteps (g :: groups)))
        with (groupSteps g ++ concat (map groupSteps groups)).
      rewrite <- (app_assoc (groupSteps g)), (map_app _ (groupSteps g)), app_assoc.
      reflexivity. }
  destruct (Hgen w [] []) as [w' Hrun]. unfold recordedGroups in Hrun.
  rewrite Hrun. reflexivity.
Qed.

Lemma reconcile_calls_when_nothing_fails_witness :
  recordedRun (A := idleAdmin) (G := idleGroup) exampleGroups tt =
    (map (fun c => (c, None)) (concat (map groupSteps exampleGroups) ++ [DeleteGroups]),
     [], None).
Proof.
  apply (reconcile_calls_when_nothing_fails idleAdmin idleGroup exampleGroups tt).
  - repeat split; intros; reflexivity.
  - repeat constructor; discriminate.
Defined.

(** ** [Config.Load] *)

(** X19: Called on the package-level configuration, as [main] does, [Load]
    succeeds on a parsed file exactly when the groups path is given and
    absolute, or is not given and the directory of the configuration file
    has an absolute form. *)
Theorem Config_Load_succeeds_iff (F : FilePath) (c parsed : Config)
    (configFilePath : string) (confirmChanges : bool) :
  (exists c', Config_Load None c configFilePath confirmChanges (Parses parsed) = (c', None)) <->
  (GroupsPath parsed <> "" /\ filepath_IsAbs (GroupsPath parsed) = true) \/
  (GroupsPath parsed = "" /\
   exists abs, filepath_Abs (filepath_Dir configFilePath) = (abs, None) /\
               filepath_IsAbs abs = true).
Proof.
  unfold Config_Load.
  destruct (String.eqb_spec (GroupsPath parsed) "") as [Hgp|Hgp].
  - destruct (filepath_Abs (filepath_Dir configFilePath)) as [abs [e|]]; simpl.
    + split; [intros [c' [=]]|].
      intros [[Hne _]|(_ & abs' & [=] & _)]. contradiction.
    + destruct (filepath_IsAbs abs) eqn:Habs; simpl.
      * split; [|intros _; eexists; reflexivity].
        intros _. right. split; [exact Hgp|]. exists abs. auto.
      * split; [intros [c' [=]]|].
        intros [[Hne _]|(_ & abs' & [= <-] & Habs')]; [contradiction | congruence].
  - destruct (filepath_IsAbs (GroupsPath parsed)) eqn:Habs; simpl.
    + split; [|intros _; eexists; reflexivity]. intros _. left. auto.
    + split; [intros [c' [=]]|].
      intros [[_ Habs']|[Heq _]]; [congruence | contradiction].
Qed.

(** X20: After a successful [Load] on the package-level configuration, the groups
    path is absolute (hence not empty): it is the given one, or else the
    absolute form of the directory of the configuration file; the
    restrictions path is the given one, or else [restrictions.yaml] in the
    groups path; [ConfirmChanges] is the flag, whatever the file says; the
    other fields are those of the file. *)
Theorem Config_Load_result (F : FilePath) (c parsed c' : Config)
    (configFilePath : string) (confirmChanges : bool) :
  Config_Load None c configFilePath confirmChanges (Parses parsed) = (c', None) ->
  filepath_IsAbs (GroupsPath c') = true /\ GroupsPath c' <> "" /\
  GroupsPath c' =
    (if String.eqb (GroupsPath parsed) ""
     then fst (filepath_Abs (filepath_Dir configFilePath)) else GroupsPath parsed) /\
  RestrictionsPath c' =
    (if String.eqb (RestrictionsPath parsed) ""
     then filepath_Join (GroupsPath c') defaultRestrictionsFile
     else RestrictionsPath parsed) /\
  ConfirmChanges c' = confirmChanges /\
  BotID c' = BotID parsed /\ SecretVersion c' = SecretVersion parsed.
Proof.
  unfold Config_Load.
  assert (Hne : forall p, filepath_IsAbs p = true -> p <> "").
  { intros p Hp ->. discriminate. }
  destruct (String.eqb (GroupsPath parsed) "").
  - destruct (filepath_Abs (filepath_Dir configFilePath)) as [abs [e|]]; simpl;
      [discriminate|].
    destruct (filepath_IsAbs abs) eqn:Habs; simpl; [|discriminate].
    intros [= <-]. simpl. repeat split; auto.
  - simpl. destruct (filepath_IsAbs (GroupsPath parsed)) eqn:Habs; simpl; [|discriminate].
    intros [= <-]. simpl. repeat split; auto.
Qed.

Lemma Config_Load_result_witness :
  let parsed := {| BotID := "bot@x.com"; SecretVersion := "projects/p/secrets/s/versions/1";
                   GroupsPath := "/srv/groups"; RestrictionsPath := "";
                   ConfirmChanges := true |} in
  let c' := fst (Config_Load (F := plainPaths) None parsed "config.yaml" false
                   (Parses parsed)) in
  filepath_IsAbs (GroupsPath c') = true /\ GroupsPath c' <> "" /\
  GroupsPath c' = "/srv/groups" /\
  RestrictionsPath c' = "/srv/groups/restrictions.yaml" /\
  ConfirmChanges c' = false /\
  BotID c' = "bot@x.com" /\ SecretVersion c' = "projects/p/secrets/s/versions/1".
Proof.
  intros parsed c'.
  apply (Config_Load_result plainPaths parsed parsed c' "config.yaml" false).
  reflexivity.
Defined.

(** ** [printGroupMembersAndSettings] *)

Lemma appendRole_filter (role : string) (members : list admin_Member.t) (acc : list string) :
  appendRole role members acc =
  acc ++ map admin_Member.Email (List.filter (hasRole role) members).
Proof.
  revert acc. induction members as [|m members IH]; intros acc; simpl.
  - rewrite app_nil_r. reflexivity.
  - unfold hasRole at 1. destruct (String.eqb (admin_Member.Role m) role); simpl.
    + rewrite IH, <- app_assoc. reflexivity.
    + apply IH.
Qed.

(** X21: The group built from a listing has, as owners, managers and members,
    the addresses of the listed members with the role OWNER, MANAGER and
    MEMBER, each in the order of the listing; a member with another role is
    in none of the three, and no member is counted twice. *)
Theorem groupOf_roles (g : admin_Group.t) (g2 : groupssettings_Groups.t)
    (members : list admin_Member.t) :
  let group := groupOf g g2 members in
  Owners group = map admin_Member.Email (List.filter (hasRole ownerRole) members) /\
  Managers group = map admin_Member.Email (List.filter (hasRole managerRole) members) /\
  Members group = map admin_Member.Email (List.filter (hasRole memberRole) members) /\
  length (Owners group) + length (Managers group) + length (Members group) =
    length (List.filter hasKnownRole members).
Proof.
  intros group.
  assert (Heq : Owners group = map admin_Member.Email (List.filter (hasRole ownerRole) members) /\
                Managers group = map admin_Member.Email (List.filter (hasRole managerRole) members) /\
                Members group = map admin_Member.Email (List.filter (hasRole memberRole) members)).
  { subst group. destruct members as [|m members]; [repeat split|].
    unfold groupOf. cbn [Owners Managers Members].
    rewrite !appendRole_filter. repeat split. }
  destruct Heq as (Ho & Hm & Hp). repeat split; try assumption.
  rewrite Ho, Hm, Hp, !length_map. clear.
  unfold hasKnownRole, hasRole, ownerRole, managerRole, memberRole.
  induction members as [|m members IH]; [reflexivity|].
  cbn [List.filter].
  destruct (String.eqb_spec (admin_Member.Role m) "OWNER") as [Ho|_];
    destruct (String.eqb_spec (admin_Member.Role m) "MANAGER") as [Hm|_];
    destruct (String.eqb_spec (admin_Member.Role m) "MEMBER") as [Hp|_];
    try congruence; simpl; lia.
Qed.

(** X22: The settings of a built group are the eleven settings read from the
    remote group, none overwriting another; [ReconcileMembers] is not among
    them, so that for a built group the reconciler takes the narrow removal,
    the one of owners and managers. *)
Theorem groupOf_settings (g : admin_Group.t) (g2 : groupssettings_Groups.t)
    (members : list admin_Member.t) :
  let settings := Settings (groupOf g g2 members) in
  size settings = 11 /\
  settings !! "AllowExternalMembers" = Some (groupssettings_Groups.AllowExternalMembers g2) /\
  settings !! "WhoCanJoin" = Some (groupssettings_Groups.WhoCanJoin g2) /\
  settings !! "WhoCanViewMembership" = Some (groupssettings_Groups.WhoCanViewMembership g2) /\
  settings !! "WhoCanViewGroup" = Some (groupssettings_Groups.WhoCanViewGroup g2) /\
  settings !! "WhoCanDiscoverGroup" = Some (groupssettings_Groups.WhoCanDiscoverGroup g2) /\
  settings !! "WhoCanInvite" = Some (groupssettings_Groups.WhoCanInvite g2) /\
  settings !! "WhoCanAdd" = Some (groupssettings_Groups.WhoCanAdd g2) /\
  settings !! "WhoCanApproveMembers" = Some (groupssettings_Groups.WhoCanApproveMembers g2) /\
  settings !! "WhoCanModifyMembers" = Some (groupssettings_Groups.WhoCanModifyMembers g2) /\
  settings !! "WhoCanModerateMembers" = Some (groupssettings_Groups.WhoCanModerateMembers g2) /\
  settings !! "MembersCanPostAsTheGroup" =
    Some (groupssettings_Groups.MembersCanPostAsTheGroup g2) /\
  String.eqb (mapIndex settings "ReconcileMembers") "true" = false /\
  removalCall (groupOf g g2 members) =
    RemoveOwnerOrManagers (Owners (groupOf g g2 members) ++ Managers (groupOf g g2 members)).
Proof.
  intros settings.
  assert (Hs : settings = settingsOf g2) by (subst settings; destruct members; reflexivity).
  assert (Hnone : settings !! "ReconcileMembers" = None) by (rewrite Hs; reflexivity).
  rewrite Hs. repeat split; try reflexivity.
  unfold removalCall. fold settings. rewrite Hnone. reflexivity.
Qed.

Lemma groupOf_identity (g : admin_Group.t) (g2 : groupssettings_Groups.t)
    (members : list admin_Member.t) :
  EmailId (groupOf g g2 members) = admin_Group.Email g /\
  Name (groupOf g g2 members) = admin_Group.Name g /\
  Description (groupOf g g2 members) = admin_Group.Description g.
Proof. destruct members; repeat split. Qed.

Lemma printLoop_result {W : Type} {AC : AdminServiceClient W} {GC : GroupServiceClient W}
    (groups : list admin_Group.t) :
  forall (groupsConfig groupsConfig' : GroupsConfig) (s s' : Printing W)
         (err : option PrintError),
    printLoop groups groupsConfig s = (s', groupsConfig', err) ->
    stdout s' = stdout s /\
    (err = None ->
     exists built, Groups groupsConfig' = Groups groupsConfig ++ built /\
                   Forall2 builtFor groups built).
Proof.
  induction groups as [|g groups IH]; intros cfg cfg' s s' err; simpl.
  - intros [= <- <- <-]. split; [reflexivity|]. intros _. exists [].
    rewrite app_nil_r. split; [reflexivity | constructor].
  - destruct (groupssettings_Get (admin_Group.Email g) (remote s)) as [w1 [g2 [e|]]].
    { intros [= <- <- <-]. split; [reflexivity | discriminate]. }
    simpl.
    destruct (ListMembers (admin_Group.Email g) w1) as [w2 [members [e|]]].
    { intros [= <- <- <-]. split; [reflexivity | discriminate]. }
    intros Hrest. apply IH in Hrest. destruct Hrest as [Hout Hbuilt]. split.
    + rewrite Hout. destruct members; reflexivity.
    + intros Herr. destruct (Hbuilt Herr) as (built & Hcfg & Hall).
      exists (groupOf g g2 members :: built). simpl in Hcfg.
      rewrite Hcfg, <- app_assoc. split; [reflexivity|].
      constructor; [apply groupOf_identity | exact Hall].
Qed.

(** X23: [printGroupMembersAndSettings] prints nothing on the standard output
    when it returns an error.  When it returns none, either the listing of
    the groups was empty, nothing is printed and the log says so, or it
    prints one snippet, generated for a configuration that has one group for
    each listed group, in the order of the listing, with its address, name
    and description. *)
Theorem print_one_group_per_listed_group {W : Type} (AC : AdminServiceClient W)
    (GC : GroupServiceClient W) (Y : GenYaml) (s s' : Printing W)
    (err : option PrintError) :
  printGroupMembersAndSettings s = (s', err) ->
  let listed := fst (snd (ListGroups (remote s))) in
  match err with
  | Some _ => stdout s' = stdout s
  | None =>
      (listed = [] /\ stdout s' = stdout s /\
       logLines s' = logLines s ++ ["No groups found."]) \/
      (listed <> [] /\
       exists groupsConfig yamlSnippet,
         genyaml_GenYaml groupsConfig = (yamlSnippet, None) /\
         stdout s' = stdout s ++ [yamlSnippet] /\
         Forall2 builtFor listed (Groups groupsConfig))
  end.
Proof.
  unfold printGroupMembersAndSettings.
  destruct (ListGroups (remote s)) as [w [groups [e|]]]; simpl.
  { intros [= <- <-]. reflexivity. }
  destruct groups as [|g groups].
  { intros [= <- <-]. left. repeat split. }
  destruct (printLoop (g :: groups) {| Groups := [] |} (setRemote w s))
    as [[s1 cfg] [e|]] eqn:Hloop;
    apply printLoop_result in Hloop; destruct Hloop as [Hout Hbuilt].
  { intros [= <- <-]. exact Hout. }
  destruct (genyaml_GenYaml cfg) as [yamlSnippet [e|]] eqn:Hyaml.
  { intros [= <- <-]. exact Hout. }
  intros [= <- <-]. right. split; [discriminate|].
  destruct (Hbuilt eq_refl) as (built & Hcfg & Hall). simpl in Hcfg.
  exists cfg, yamlSnippet. rewrite Hcfg. simpl. rewrite Hout. repeat split; assumption.
Qed.

Lemma print_one_group_per_listed_group_witness :
  let s0 := {| remote := exampleDirectory; stdout := []; logLines := [] |} in
  let listed := fst (snd (ListGroups (AdminServiceClient := directoryAdminClient) (remote s0))) in
  (listed = [] /\
   stdout (fst (printGroupMembersAndSettings (AC := directoryAdminClient)
                  (GC := directoryGroupClient) (Y := identitiesYaml) s0)) = stdout s0 /\
   logLines (fst (printGroupMembersAndSettings (AC := directoryAdminClient)
                    (GC := directoryGroupClient) (Y := identitiesYaml) s0)) =
     logLines s0 ++ ["No groups found."]) \/
  (listed <> [] /\
   exists groupsConfig yamlSnippet,
     genyaml_GenYaml (GenYaml := identitiesYaml) groupsConfig = (yamlSnippet, None) /\
     stdout (fst (printGroupMembersAndSettings (AC := directoryAdminClient)
                    (GC := directoryGroupClient) (Y := identitiesYaml) s0)) =
       stdout s0 ++ [yamlSnippet] /\
     Forall2 builtFor listed (Groups groupsConfig)).
Proof.
  intros s0 listed.
  apply (print_one_group_per_listed_group directoryAdminClient directoryGroupClient
           identitiesYaml s0 _ None).
  vm_compute. reflexivity.
Defined.

(** The groups of the example directory, as printed: the member with
    another role is left out, and the group without members is reported in
    the log. *)
Example print_example_directory :
  printGroupMembersAndSettings (AC := directoryAdminClient) (GC := directoryGroupClient)
    (Y := identitiesYaml) {| remote := exampleDirectory; stdout := []; logLines := [] |} =
  ({| remote := exampleDirectory; stdout := ["a@x.com,b@x.com"];
      logLines := ["No members found in group."] |}, None) /\
  let group := groupOf (admin_Group.mk "a@x.com" "a" "group a") noSettings
                 [ admin_Member.mk "m1@x.com" "MEMBER"; admin_Member.mk "o1@x.com" "OWNER";
                   admin_Member.mk "s1@x.com" "SUSPENDED"; admin_Member.mk "g1@x.com" "MANAGER";
                   admin_Member.mk "o2@x.com" "OWNER" ] in
  Owners group = ["o1@x.com"; "o2@x.com"] /\ Managers group = ["g1@x.com"] /\
  Members group = ["m1@x.com"].
Proof. vm_compute. repeat split. Qed.
